(** * FFC uflacs expression graph: [ffc/ir/uflacs/analysis/graph.py]

    A shallow embedding of the linearized computational graph of FFC's
    uflacs intermediate representation: the [ExpressionGraph] container,
    the unique post-order enumerator, the vertex builder, the scalar
    rebuilder and the final scalar graph with its dependency edges.

    Two smaller pieces of the compiler follow the graph: the point maps of
    [ffc/compiler/pointmap.py] and the include lines of
    [ffc/formatting.py]. *)

From stdpp Require Import base list strings gmap pretty sorting.

Open Scope string_scope.
Open Scope list_scope.
Open Scope nat_scope.

(** ** Python exceptions and fallible results *)

(** The exceptions the graph code can raise; [LoopBudgetExhausted] is not
    one of Python's: it stands for a loop of the model that was not given
    enough iterations. *)
Inductive exception : Type :=
| KeyError (msg : string)
| IndexError
| AttributeError
| RuntimeError (msg : string)
| AssertionError
| LoopBudgetExhausted.

Inductive result (A : Type) : Type :=
| Ok (a : A)
| Raise (e : exception).
Arguments Ok {A} a.
Arguments Raise {A} e.

Definition rbind {A B : Type} (r : result A) (k : A → result B) : result B :=
  match r with
  | Ok a => k a
  | Raise e => Raise e
  end.

#[global] Instance result_bind : MBind result := λ A B k r, rbind r k.
#[global] Instance result_ret : MRet result := λ A a, Ok a.

Definition or_raise {A : Type} (e : exception) (o : option A) : result A :=
  match o with
  | Some a => Ok a
  | None => Raise e
  end.

(** ** UFL expressions, as far as the graph code looks at them

    A node carries the names of its class and of the classes it inherits
    from ([isinstance] tests against them), its tensor shape and, for an
    operator, the terminal-modifier flag of its class, its free indices
    and its ordered operands.  Two nodes are the same dictionary key when
    they are equal as trees: UFL hashes and compares expressions
    structurally. *)

#[warnings="-register-all"]
Inductive Expr : Type :=
| Terminal (mro : list string) (ident : nat) (shape : list nat)
| Operator (mro : list string) (modifier : bool) (shape : list nat)
           (free_indices : list nat) (operands : list Expr).

Fixpoint Expr_eq_dec (a b : Expr) {struct a} : {a = b} + {a ≠ b}.
Proof.
  refine (
    match a, b with
    | Terminal m1 i1 s1, Terminal m2 i2 s2 =>
        cast_if_and3 (decide (m1 = m2)) (decide (i1 = i2)) (decide (s1 = s2))
    | Operator m1 t1 s1 f1 o1, Operator m2 t2 s2 f2 o2 =>
        cast_if_and5 (decide (m1 = m2)) (decide (t1 = t2)) (decide (s1 = s2))
                     (decide (f1 = f2))
                     ((fix operands_eq_dec (l k : list Expr) {struct l}
                         : {l = k} + {l ≠ k} :=
                         match l, k with
                         | [], [] => left eq_refl
                         | x :: l', y :: k' =>
                             cast_if_and (Expr_eq_dec x y) (operands_eq_dec l' k')
                         | _, _ => right _
                         end) o1 o2)
    | _, _ => right _
    end); abstract congruence.
Defined.

#[global] Instance Expr_eq_decision : EqDecision Expr := Expr_eq_dec.

Definition _ufl_is_terminal_ (e : Expr) : bool :=
  match e with
  | Terminal _ _ _ => true
  | Operator _ _ _ _ _ => false
  end.

Definition _ufl_is_terminal_modifier_ (e : Expr) : bool :=
  match e with
  | Terminal _ _ _ => false
  | Operator _ t _ _ _ => t
  end.

Definition ufl_shape (e : Expr) : list nat :=
  match e with
  | Terminal _ _ s => s
  | Operator _ _ s _ _ => s
  end.

Definition ufl_free_indices (e : Expr) : list nat :=
  match e with
  | Terminal _ _ _ => []
  | Operator _ _ _ f _ => f
  end.

Definition ufl_operands (e : Expr) : list Expr :=
  match e with
  | Terminal _ _ _ => []
  | Operator _ _ _ _ ops => ops
  end.

Definition type_mro (e : Expr) : list string :=
  match e with
  | Terminal m _ _ => m
  | Operator m _ _ _ _ => m
  end.

(** [isinstance(e, classes)]: some listed class is the class of [e] or
    one of its bases. *)
Definition isinstance (e : Expr) (classes : list string) : bool :=
  existsb (λ c, bool_decide (c ∈ type_mro e)) classes.

(** Number of nodes of the tree below (and including) [e]. *)
Fixpoint expr_size (e : Expr) : nat :=
  match e with
  | Terminal _ _ _ => 1
  | Operator _ _ _ _ ops =>
      S ((fix total (l : list Expr) : nat :=
            match l with
            | [] => 0
            | x :: l' => expr_size x + total l'
            end) ops)
  end.

(** ** Python dictionaries: insertion-ordered, one entry per key *)

Abbreviation dict K V := (list (K * V)) (only parsing).

Section dict.
Context {K V : Type} `{EqDecision K}.

Fixpoint dict_get (k : K) (d : dict K V) : option V :=
  match d with
  | [] => None
  | (k', v) :: d' => if decide (k = k') then Some v else dict_get k d'
  end.

(** [d[k] = v]: overwrite in place, or append a new entry. *)
Fixpoint dict_set (k : K) (v : V) (d : dict K V) : dict K V :=
  match d with
  | [] => [(k, v)]
  | (k', v') :: d' =>
      if decide (k = k') then (k, v) :: d' else (k', v') :: dict_set k v d'
  end.

Definition dict_contains (k : K) (d : dict K V) : bool :=
  match dict_get k d with
  | Some _ => true
  | None => false
  end.

Definition dict_keys (d : dict K V) : list K := d.*1.
End dict.

(** ** The unique post-order enumerator *)

(** [getops]: the operands the traversal descends into, as a modifiable
    list whose consumed entries are overwritten with [None]. *)
Definition getops (skip_terminal_modifiers : bool) (e : Expr) : list (option Expr) :=
  if _ufl_is_terminal_ e
     || (skip_terminal_modifiers && _ufl_is_terminal_modifier_ e
         && bool_decide (ufl_free_indices e = []))
  then []
  else Some <$> ufl_operands e.

(** The [for i, o in enumerate(ops)] scan: position and value of the first
    entry that is not [None] and not yet a key of [e2i]. *)
Fixpoint scan_ops (e2i : dict Expr nat) (i : nat) (ops : list (option Expr))
  : option (nat * Expr) :=
  match ops with
  | [] => None
  | Some o :: ops' =>
      if dict_contains o e2i then scan_ops e2i (S i) ops' else Some (i, o)
  | None :: ops' => scan_ops e2i (S i) ops'
  end.

Abbreviation frame := (Expr * list (option Expr))%type (only parsing).

(** The traversal state: the index map and the work stack, whose top (the
    last element of the Python list) is the head here. *)
Abbreviation trav := (dict Expr nat * list frame)%type (only parsing).

(** One iteration of the [while stack] loop; [None] when the stack is
    empty and the loop has ended. *)
Definition trav_step (skip : list string) (skip_terminal_modifiers : bool)
  (st : trav) : option trav :=
  match st.2 with
  | [] => None
  | (expr, ops) :: below =>
      match scan_ops st.1 0 ops with
      | Some (i, o) =>
          Some (st.1,
                (o, getops skip_terminal_modifiers o) :: (expr, <[i:=None]> ops) :: below)
      | None =>
          if isinstance expr ("Label" :: skip)
          then Some (st.1, below)
          else Some (dict_set expr (length st.1) st.1, below)
      end
  end.

Fixpoint trav_loop (fuel : nat) (skip : list string) (skip_terminal_modifiers : bool)
  (st : trav) : option (dict Expr nat) :=
  match trav_step skip skip_terminal_modifiers st with
  | None => Some st.1
  | Some st' =>
      match fuel with
      | 0 => None
      | S fuel' => trav_loop fuel' skip skip_terminal_modifiers st'
      end
  end.

(** Iterations that suffice for a frame of [e] with all operands pending. *)
Fixpoint trav_work (e : Expr) : nat :=
  match e with
  | Terminal _ _ _ => 1
  | Operator _ _ _ _ ops =>
      S ((fix total (l : list Expr) : nat :=
            match l with
            | [] => 0
            | x :: l' => S (trav_work x) + total l'
            end) ops)
  end.

(** The enumerator. [None] would mean that the iteration budget ran out
    before the stack emptied; [count_nodes_spec] shows it never does. *)
Definition _count_nodes_with_unique_post_traversal
  (expr : Expr) (skip : list string) (skip_terminal_modifiers : bool)
  : option (dict Expr nat) :=
  trav_loop (trav_work expr) skip skip_terminal_modifiers
    ([], [(expr, getops skip_terminal_modifiers expr)]).

(** Constructors of sample expressions, with the class names and flags
    UFL gives these node kinds. *)
Definition coefficient (n : nat) : Expr :=
  Terminal ["Coefficient"; "FormArgument"; "Terminal"; "Expr"] n [].
Definition multi_index (n : nat) : Expr :=
  Terminal ["MultiIndex"; "Terminal"; "Expr"] n [].
Definition product (a b : Expr) : Expr :=
  Operator ["Product"; "Operator"; "Expr"] false [] [] [a; b].
Definition sum_of (a b : Expr) : Expr :=
  Operator ["Sum"; "Operator"; "Expr"] false [] [] [a; b].
Definition division (a b : Expr) : Expr :=
  Operator ["Division"; "Operator"; "Expr"] false [] [] [a; b].
Definition positive_restricted (a : Expr) : Expr :=
  Operator ["PositiveRestricted"; "Restricted"; "Operator"; "Expr"] true
    (ufl_shape a) (ufl_free_indices a) [a].
Definition indexed (a ii : Expr) : Expr :=
  Operator ["Indexed"; "Operator"; "Expr"] true [] [] [a; ii].

(** ** The [ExpressionGraph] container *)

(** Values stored in a node's keyword dictionary. *)
Inductive pyval : Type :=
| VExpr (e : Expr)
| VBool (b : bool).

Abbreviation kwargs := (dict string pyval) (only parsing).

(** [nodes] keeps its insertion order (the builders iterate over it);
    [e2i] is the attribute the vertex builder attaches, absent on a graph
    fresh from [__init__]. *)
Record ExpressionGraph : Type := mkGraph {
  nodes : dict nat kwargs;
  out_edges : gmap nat (list nat);
  in_edges : gmap nat (list nat);
  e2i : option (dict Expr nat)
}.

(** A method acts on the graph object and returns or raises; the graph
    it leaves behind is part of the outcome either way. *)
Definition method (A : Type) : Type := ExpressionGraph → ExpressionGraph * result A.

Definition new_graph : ExpressionGraph := mkGraph [] ∅ ∅ None.

Definition number_of_nodes (G : ExpressionGraph) : nat := length (nodes G).

Definition add_node (key : nat) (kw : kwargs) : method unit := λ G,
  let G1 := mkGraph (dict_set key kw (nodes G)) (out_edges G) (in_edges G) (e2i G) in
  let G2 := mkGraph (nodes G1) (<[key:=[]]> (out_edges G1)) (in_edges G1) (e2i G1) in
  let G3 := mkGraph (nodes G2) (out_edges G2) (<[key:=[]]> (in_edges G2)) (e2i G2) in
  (G3, Ok ()).

Definition add_edge (node1 node2 : nat) : method unit := λ G,
  if negb (dict_contains node1 (nodes G)) || negb (dict_contains node2 (nodes G))
  then (G, Raise (KeyError "Adding edge to unknown node"))
  else
    match out_edges G !! node1 with
    | None => (G, Raise (KeyError "out_edges"))
    | Some out1 =>
        let G1 := mkGraph (nodes G) (<[node1:=out1 ++ [node2]]> (out_edges G))
                          (in_edges G) (e2i G) in
        match in_edges G1 !! node2 with
        | None => (G1, Raise (KeyError "in_edges"))
        | Some in2 =>
            (mkGraph (nodes G1) (out_edges G1) (<[node2:=in2 ++ [node1]]> (in_edges G1))
                     (e2i G1),
             Ok ())
        end
    end.

(** A [for] loop whose body is a method call: stops at the first raise. *)
Fixpoint for_each {A : Type} (body : A → method unit) (l : list A) : method unit := λ G,
  match l with
  | [] => (G, Ok ())
  | x :: l' =>
      match body x G with
      | (G', Ok _) => for_each body l' G'
      | (G', Raise e) => (G', Raise e)
      end
  end.

Definition enumerate {A : Type} (l : list A) : list (nat * A) :=
  imap (λ i x, (i, x)) l.

(** ** Vertices *)

(** [sorted(keys, key=f)]: stable, ascending in [f]. *)
Fixpoint sorted_insert {A : Type} (f : A → nat) (x : A) (l : list A) : list A :=
  match l with
  | [] => [x]
  | y :: l' => if decide (f x ≤ f y) then x :: y :: l' else y :: sorted_insert f x l'
  end.

Definition sorted {A : Type} (f : A → nat) (l : list A) : list A :=
  foldr (sorted_insert f) [] l.

(** [G.e2i.get], used as a sort key on the keys of [G.e2i] only. *)
Definition e2i_get (m : dict Expr nat) (k : Expr) : nat := default 0 (dict_get k m).

Definition build_graph_vertices
  (expression : Expr) (skip : list string) (skip_terminal_modifiers : bool)
  : result ExpressionGraph :=
  m ← or_raise LoopBudgetExhausted
        (_count_nodes_with_unique_post_traversal expression skip skip_terminal_modifiers);
  let G := mkGraph (nodes new_graph) (out_edges new_graph) (in_edges new_graph) (Some m) in
  let GV := sorted (e2i_get m) (dict_keys m) in
  let '(G, r) := for_each (λ iv, add_node iv.1 [("expression", VExpr iv.2)]) (enumerate GV) G in
  _ ← r;
  V_target ← or_raise (KeyError "e2i") (dict_get expression m);
  kw ← or_raise (KeyError "nodes") (dict_get V_target (nodes G));
  Ok (mkGraph (dict_set V_target (dict_set "target" (VBool true) kw) (nodes G))
              (out_edges G) (in_edges G) (e2i G)).

Definition get_expression (v : kwargs) : result Expr :=
  pv ← or_raise (KeyError "expression") (dict_get "expression" v);
  match pv with
  | VExpr e => Ok e
  | VBool _ => Raise AttributeError
  end.

Definition get_e2i (G : ExpressionGraph) : result (dict Expr nat) :=
  or_raise AttributeError (e2i G).

(** ** The scalar rebuilder *)

(** [ufl.permutation.compute_indices]: all multi-indices of a shape, the
    last position varying fastest. *)
Fixpoint compute_indices (shape : list nat) : list (list nat) :=
  match shape with
  | [] => [[]]
  | n :: shape' =>
      i ← seq 0 n; (i ::.) <$> compute_indices shape'
  end.

(** The test [all(W[s] is not None for s in vs)], which stops at the
    first empty slot. *)
Fixpoint all_filled (W : list (option Expr)) (vs : list nat) : result bool :=
  match vs with
  | [] => Ok true
  | s :: vs' =>
      match W !! s with
      | None => Raise IndexError
      | Some None => Ok false
      | Some (Some _) => all_filled W vs'
      end
  end.

(** Body of the storing loop over [zip(vs, ws)]. *)
Definition store_symbol (st : list (option Expr) * gset nat) (sw : nat * Expr)
  : result (list (option Expr) * gset nat) :=
  match st.1 !! sw.1 with
  | None => Raise IndexError
  | Some None => Ok (<[sw.1:=Some sw.2]> st.1, {[sw.1]} ∪ st.2)
  | Some (Some _) =>
      if bool_decide (sw.1 ∈ st.2) then Ok st else Raise AssertionError
  end.

Fixpoint store_symbols (st : list (option Expr) * gset nat) (l : list (nat * Expr))
  : result (list (option Expr) * gset nat) :=
  match l with
  | [] => Ok st
  | sw :: l' => st' ← store_symbol st sw; store_symbols st' l'
  end.

Section rebuild.
(** Taken as parameters: the repository's value numberer
    ([ValueNumberer(G).compute_symbols()] with its [symbol_count]), its
    [is_modified_terminal] test and its [reconstruct] rules, whose sources
    are not part of this file's module, and UFL's component access
    [expr[c]]. *)
Variable compute_symbols : ExpressionGraph → result (list (list nat) * nat).
Variable is_modified_terminal : Expr → bool.
Variable reconstruct : Expr → list (list (option Expr)) → result (list Expr).
Variable getitem : Expr → list nat → Expr.

(** Symbols of the operands of an operator node. *)
Definition operand_symbols (G : ExpressionGraph) (V_symbols : list (list nat))
  (vop : Expr) : result (list nat) :=
  if isinstance vop ["MultiIndex"] then Ok []
  else
    m ← get_e2i G;
    k ← or_raise (KeyError "e2i") (dict_get vop m);
    or_raise IndexError (V_symbols !! k).

Definition fetch (W : list (option Expr)) (k : nat) : result (option Expr) :=
  or_raise IndexError (W !! k).

(** The scalar expressions [ws] of one node that is not skipped. *)
Definition node_scalars (G : ExpressionGraph) (V_symbols : list (list nat))
  (W : list (option Expr)) (expr : Expr) (vs : list nat) : result (list Expr) :=
  if is_modified_terminal expr then
    match ufl_shape expr with
    | _ :: _ => Ok (getitem expr <$> compute_indices (ufl_shape expr))
    | [] =>
        if bool_decide (length vs ≠ 1)
        then Raise (RuntimeError "Expecting single symbol for scalar valued modified terminal.")
        else Ok [expr]
    end
  else
    sops ← mapM (operand_symbols G V_symbols) (ufl_operands expr);
    wops ← mapM (mapM (fetch W)) sops;
    ws ← reconstruct expr wops;
    if bool_decide (length vs ≠ length ws)
    then Raise (RuntimeError "Expecting one symbol for each expression.")
    else Ok ws.

(** Body of the loop over [G.nodes.items()]. *)
Definition rebuild_node (G : ExpressionGraph) (V_symbols : list (list nat))
  (W : list (option Expr)) (iv : nat * kwargs) : result (list (option Expr)) :=
  expr ← get_expression iv.2;
  vs ← or_raise IndexError (V_symbols !! iv.1);
  filled ← all_filled W vs;
  if filled : bool then Ok W
  else
    ws ← node_scalars G V_symbols W expr vs;
    st ← store_symbols (W, (∅ : gset nat)) (zip vs ws);
    Ok st.1.

Fixpoint rebuild_nodes (G : ExpressionGraph) (V_symbols : list (list nat))
  (W : list (option Expr)) (l : list (nat * kwargs)) : result (list (option Expr)) :=
  match l with
  | [] => Ok W
  | iv :: l' => W' ← rebuild_node G V_symbols W iv; rebuild_nodes G V_symbols W' l'
  end.

(** The returned object is [W[vs]], which is [None] when that slot was
    never filled. *)
Definition rebuild_with_scalar_subexpressions (G : ExpressionGraph)
  : result (option Expr) :=
  '(V_symbols, total_unique_symbols) ← compute_symbols G;
  let W := replicate total_unique_symbols None in
  W ← rebuild_nodes G V_symbols W (nodes G);
  last_symbols ← or_raise IndexError (last V_symbols);
  vs ← or_raise IndexError (last_symbols !! 0);
  fetch W vs.

(** ** The final scalar graph *)

Definition has_no_dependencies (expr : Expr) : bool :=
  _ufl_is_terminal_ expr
  || (_ufl_is_terminal_modifier_ expr && bool_decide (ufl_free_indices expr = [])).

Definition node_deps (G : ExpressionGraph) (iv : nat * kwargs) : result (list nat) :=
  expr ← get_expression iv.2;
  if has_no_dependencies expr then Ok []
  else
    mapM (λ o, m ← get_e2i G; or_raise (KeyError "e2i") (dict_get o m))
         (ufl_operands expr).

Definition add_edges_from (ie : nat * list nat) : method unit :=
  for_each (λ j, add_edge ie.1 j) ie.2.

Definition build_scalar_graph (expression : Expr) : result ExpressionGraph :=
  G ← build_graph_vertices expression ["MultiIndex"] false;
  scalar_expression ← rebuild_with_scalar_subexpressions G;
  scalar_expression ← or_raise AttributeError scalar_expression;
  G ← build_graph_vertices scalar_expression [] true;
  V_deps ← mapM (node_deps G) (nodes G);
  let '(G, r) := for_each add_edges_from (enumerate V_deps) G in
  _ ← r;
  Ok G.
End rebuild.

(** ** Sample inputs

    Stand-ins for the value numberer, the modified-terminal test and the
    reconstruction rules on already scalar expressions: one fresh symbol
    per node, terminals and terminal modifiers as modified terminals, an
    operator rebuilt from the first scalar of each operand. *)

Definition sample_compute_symbols (G : ExpressionGraph) : result (list (list nat) * nat) :=
  Ok ((λ iv : nat * kwargs, [iv.1]) <$> nodes G, length (nodes G)).

Definition sample_is_modified_terminal (e : Expr) : bool :=
  _ufl_is_terminal_ e || _ufl_is_terminal_modifier_ e.

Definition sample_reconstruct (e : Expr) (wops : list (list (option Expr)))
  : result (list Expr) :=
  match e with
  | Terminal _ _ _ => Raise (RuntimeError "Not expecting a terminal here.")
  | Operator m t s f _ =>
      ops ← mapM (λ w : list (option Expr),
                    or_raise (RuntimeError "Missing operand.") (mjoin (head w))) wops;
      Ok [Operator m t s f ops]
  end.

Definition sample_getitem (e : Expr) (c : list nat) : Expr :=
  indexed e (Terminal ["MultiIndex"; "Terminal"; "Expr"] 0 c).

(** [a*b + a*b] over two scalar coefficients. *)
Definition ab_plus_ab : Expr :=
  sum_of (product (coefficient 0) (coefficient 1)) (product (coefficient 0) (coefficient 1)).

(** [f('+') / f]: the restriction of a coefficient to the positive side
    of a facet over the coefficient itself. *)
Definition restricted_over_plain : Expr :=
  division (positive_restricted (coefficient 0)) (coefficient 0).

(** A reconstruction rule that hands back two scalars whatever the node. *)
Definition two_for_one_reconstruct (e : Expr) (wops : list (list (option Expr)))
  : result (list Expr) :=
  Ok [e; e].

Definition a_times_b : Expr := product (coefficient 0) (coefficient 1).

(** [A[0] / B[0]] over two vector coefficients: both quotient operands
    index with the same multi-index object. *)
Definition vector_coefficient (n : nat) : Expr :=
  Terminal ["Coefficient"; "FormArgument"; "Terminal"; "Expr"] n [3].

Definition a0_over_b0 : Expr :=
  division (indexed (vector_coefficient 0) (multi_index 0))
           (indexed (vector_coefficient 1) (multi_index 0)).

(** [f * v[0]] over a scalar and a vector coefficient, with a numbering
    that gives the first component of [v] the symbol of [f]. *)
Definition f_times_v0 : Expr :=
  product (coefficient 0) (indexed (vector_coefficient 1) (multi_index 0)).

Definition clashing_compute_symbols (G : ExpressionGraph)
  : result (list (list nat) * nat) :=
  Ok ([[0]; [0; 1; 2]; [1]; [3]], 4).

(** The final graph of [a*b + a*b] under the stand-ins. *)
Definition ab_plus_ab_graph : ExpressionGraph :=
  match build_scalar_graph sample_compute_symbols sample_is_modified_terminal
          sample_reconstruct sample_getitem ab_plus_ab with
  | Ok G => G
  | Raise _ => new_graph
  end.

(** [variable(f)]: a variable node over a coefficient, with its label. *)
Definition label (n : nat) : Expr := Terminal ["Label"; "Terminal"; "Expr"] n [].

Definition variable (a l : Expr) : Expr :=
  Operator ["Variable"; "Operator"; "Expr"] false (ufl_shape a) (ufl_free_indices a) [a; l].

Definition variable_of_f : Expr := variable (coefficient 0) (label 0).

(** A vector-valued coefficient seen as the only vertex of a graph. *)
Definition vector_vertex : nat * kwargs :=
  (0, [("expression", VExpr (vector_coefficient 0)); ("target", VBool true)]).

(** ** Point maps: [ffc/compiler/pointmap.py] *)

(** [Declaration(name, value)]: a name and the text assigned to it.  The
    class comes from the module [declaration]; the two fields are the
    arguments of its constructor, read back as [declaration.name] and
    [declaration.value]. *)
Record Declaration : Type := mkDeclaration {
  name : string;
  value : string
}.

(** [sep.join(l)] *)
Definition str_join (sep : string) (l : list string) : string :=
  match l with
  | [] => ""
  | x :: l' => foldl (λ acc y, acc +:+ sep +:+ y) x l'
  end.

(** [range(n)]: empty when [n] is not positive. *)
Definition range (n : Z) : list Z := Z.of_nat <$> seq 0 (Z.to_nat n).

(** The three entries of the module's [format] dictionary. *)
Definition format_point (x : Z) : string := "points[" +:+ pretty x +:+ "]".
Definition format_affinemap (x : string) : string := "map(" +:+ x +:+ ")".
Definition format_component (i : Z) : string := "components[" +:+ pretty i +:+ "]".

Section pointmap.
(** Coordinates are floating-point numbers: their type, the change of
    reference element [0.5*(x + 1.0)] and the conversion ["%.15e" % x] are
    taken as parameters. *)
Variable coord : Type.
Variable to_reference : coord → coord.
Variable format_coord : coord → string.

(** [element.fiat_dual], with its points [pts] and its number of vector
    components [num_reps]. *)
Record DualBasis : Type := mkDualBasis {
  pts : list (list coord);
  num_reps : Z
}.

Record FiniteElement : Type := mkFiniteElement {
  fiat_dual : DualBasis
}.

(** Body of the inner loop that writes coordinates; the state is the list
    of declarations and the running [dof]. *)
Definition declare_point (st : list Declaration * Z) (point : list coord)
  : list Declaration * Z :=
  let x := str_join ", " (format_coord <$> point) in
  let name := format_point st.2 in
  let value := format_affinemap x in
  (st.1 ++ [mkDeclaration name value], (st.2 + 1)%Z).

(** Body of the inner loop that writes components. *)
Definition declare_component (component_offset component : Z)
  (st : list Declaration * Z) (point : list coord) : list Declaration * Z :=
  let name := format_component st.2 in
  let value := pretty (component_offset + component)%Z in
  (st.1 ++ [mkDeclaration name value], (st.2 + 1)%Z).

Definition compute_pointmap (element : FiniteElement) (local_offset component_offset : Z)
  : list Declaration * Z * Z :=
  let dual_basis := fiat_dual element in
  let points := pts dual_basis in
  let points := foldl (λ newpoints point, newpoints ++ [to_reference <$> point]) [] points in
  let num_components := num_reps dual_basis in
  let st := foldl (λ st component, foldl declare_point st points)
                  ([], local_offset) (range num_components) in
  let st := foldl (λ st component,
                     foldl (declare_component component_offset component) st points)
                  (st.1, local_offset) (range num_components) in
  let local_offset := st.2 in
  (st.1, local_offset, (component_offset + num_components)%Z).

(** The argument of [PointMap]: one element, or a list of them. *)
Inductive elements_arg : Type :=
| OneElement (element : FiniteElement)
| ElementList (elements : list FiniteElement).

(** [PointMap(elements).declarations] *)
Definition PointMap (elements : elements_arg) : list Declaration :=
  let elements :=
    match elements with
    | OneElement element => [element]
    | ElementList elements => elements
    end in
  (foldl (λ st element,
            let '(declarations, local_offset, component_offset) :=
              compute_pointmap element st.1.2 st.2 in
            (st.1.1 ++ declarations, local_offset, component_offset))
         ([], 0%Z, 0%Z) elements).1.1.

(** The degrees of freedom of an element in the order the loops visit
    them: component by component, point by point. *)
Definition dof_cells (element : FiniteElement) : list (Z * list coord) :=
  let points : list (list coord) :=
    (λ point : list coord, to_reference <$> point) <$> pts (fiat_dual element) in
  mbind (M := list) (λ c : Z, (λ point : list coord, (c, point)) <$> points)
        (range (num_reps (fiat_dual element))).
End pointmap.
Arguments mkDualBasis {coord} pts num_reps.
Arguments pts {coord} d.
Arguments num_reps {coord} d.
Arguments mkFiniteElement {coord} fiat_dual.
Arguments fiat_dual {coord} f.
Arguments OneElement {coord} element.
Arguments ElementList {coord} elements.
Arguments declare_point {coord} format_coord st point.
Arguments declare_component {coord} component_offset component st point.
Arguments compute_pointmap {coord} to_reference format_coord element local_offset component_offset.
Arguments PointMap {coord} to_reference format_coord elements.
Arguments dof_cells {coord} to_reference element.

(** The declaration of the coordinates of one degree of freedom. *)
Definition point_declaration {coord : Type} (format_coord : coord → string)
  (dof : Z) (point : list coord) : Declaration :=
  mkDeclaration (format_point dof)
                (format_affinemap (str_join ", " (format_coord <$> point))).

(** Number of degrees of freedom [compute_pointmap] walks through for
    one element. *)
Definition element_dofs {coord : Type} (element : FiniteElement coord) : nat :=
  Z.to_nat (num_reps (fiat_dual element)) * length (pts (fiat_dual element)).

Definition elements_of {coord : Type} (elements : elements_arg coord)
  : list (FiniteElement coord) :=
  match elements with
  | OneElement element => [element]
  | ElementList elements => elements
  end.

(** The integers [start, start + 1, ..., start + count - 1]. *)
Definition dofs_from (start : Z) (count : nat) : list Z :=
  (λ k : nat, (start + Z.of_nat k)%Z) <$> seq 0 count.

(** The names a point map declares, element after element, starting
    with dof [local_offset]. *)
Fixpoint declared_names {coord : Type} (local_offset : Z)
  (elements : list (FiniteElement coord)) : list string :=
  match elements with
  | [] => []
  | element :: elements' =>
      (format_point <$> dofs_from local_offset (element_dofs element))
      ++ (format_component <$> dofs_from local_offset (element_dofs element))
      ++ declared_names (local_offset + Z.of_nat (element_dofs element))%Z elements'
  end.

(** Sample elements: coordinates as integers, printed in decimal. *)
Definition sample_scalar_element : FiniteElement Z :=
  mkFiniteElement (mkDualBasis [[0%Z; 0%Z]; [2%Z; 0%Z]; [0%Z; 2%Z]] 1).

Definition sample_vector_element : FiniteElement Z :=
  mkFiniteElement (mkDualBasis [[0%Z; 0%Z]; [2%Z; 0%Z]] 2).

(** ** Include lines: [_generate_includes] of [ffc/formatting.py] *)

(** The values a [parameters] dictionary holds. *)
Inductive param : Type :=
| PStr (s : string)
| PInt (z : Z)
| PBool (b : bool)
| PNone.

#[global] Instance param_eq_dec : EqDecision param.
Proof. solve_decision. Defined.

(** The line feed. *)
Definition newline : string := String (Ascii.ascii_of_nat 10) EmptyString.

(** [sorted(s)] on a set of strings: ascending in the order of strings. *)
Definition sorted_set (s : gset string) : list string :=
  merge_sort String.le (elements s).

Definition _generate_includes (includes : gset string) (parameters : gmap string param)
  : string * string :=
  let default_h_includes := ["#include <ufc.h>"] in
  let default_c_includes :=
    ["#include <math.h>";
     "#include <stdalign.h>";
     "#include <stdbool.h>";
     "#include <stdlib.h>";
     "#include <string.h>";
     "#include <ufc.h>"] in
  let s_h : gset string := list_to_set default_h_includes ∪ includes in
  let s_c : gset string := list_to_set default_c_includes in
  let includes_h :=
    if bool_decide (s_h ≠ ∅) then str_join newline (sorted_set s_h) +:+ newline else "" in
  let includes_c :=
    if bool_decide (s_c ≠ ∅) then str_join newline (sorted_set s_c) +:+ newline else "" in
  let scalar_type := parameters !! "scalar_type" in
  let includes_c :=
    if bool_decide (scalar_type = Some (PStr "double complex"))
    then includes_c +:+ "#include<complex.h>" +:+ newline
    else includes_c in
  (includes_h, includes_c).

(** ** Predicates the statements are written with *)

(** Kinds the enumerator never indexes. *)
Definition skipped (skip : list string) (e : Expr) : bool :=
  isinstance e ("Label" :: skip).

(** A node the traversal treats as a leaf. *)
Definition is_opaque_unit (skip_terminal_modifiers : bool) (e : Expr) : bool :=
  _ufl_is_terminal_ e
  || (skip_terminal_modifiers && _ufl_is_terminal_modifier_ e
      && bool_decide (ufl_free_indices e = [])).

Definition traversed_operands (skip_terminal_modifiers : bool) (e : Expr) : list Expr :=
  if is_opaque_unit skip_terminal_modifiers e then [] else ufl_operands e.

(** [reach stm x e]: [x] is [e] or lies below it along traversed operands. *)
Inductive reach (stm : bool) : Expr → Expr → Prop :=
| reach_refl e : reach stm e e
| reach_step x c e : c ∈ traversed_operands stm e → reach stm x c → reach stm x e.

Definition settled (skip : list string) (m : dict Expr nat) (x : Expr) : Prop :=
  skipped skip x = true ∨ is_Some (dict_get x m).

Definition complete (skip : list string) (stm : bool) (m : dict Expr nat) (e : Expr) : Prop :=
  ∀ x, reach stm x e → settled skip m x.

(** Values are the positions: [0 .. len-1], one entry per key. *)
Definition dense (m : dict Expr nat) : Prop :=
  m.*2 = seq 0 (length m) ∧ NoDup (dict_keys m).

Definition ops_weight (ops : list (option Expr)) : nat :=
  sum_list ((λ o, from_option (S ∘ trav_work) 0 o) <$> ops).

Definition stack_weight (stack : list frame) : nat :=
  sum_list ((λ f : frame, S (ops_weight f.2)) <$> stack).

(** What holds of a pending operand entry [x] standing for operand [c],
    when [pend] is the expression of the frame directly above. *)
Definition slot_ok (skip : list string) (stm : bool) (m : dict Expr nat)
  (pend : option Expr) (x : option Expr) (c : Expr) : Prop :=
  x = Some c ∨ (x = None ∧ (complete skip stm m c ∨ pend = Some c)).

Fixpoint stack_inv (skip : list string) (stm : bool) (root : Expr) (m : dict Expr nat)
  (pend : option Expr) (stack : list frame) : Prop :=
  match stack with
  | [] =>
      match pend with
      | Some o => o = root
      | None =>
          complete skip stm m root
          ∧ (skipped skip root = false → dict_get root m = Some (pred (length m)))
      end
  | f :: below =>
      dict_get f.1 m = None
      ∧ Forall2 (slot_ok skip stm m pend) f.2 (traversed_operands stm f.1)
      ∧ (∀ o, pend = Some o → o ∈ traversed_operands stm f.1)
      ∧ stack_inv skip stm root m (Some f.1) below
  end.

Definition trav_inv (skip : list string) (stm : bool) (root : Expr) (st : trav) : Prop :=
  dense st.1
  ∧ (∀ k, is_Some (dict_get k st.1) → skipped skip k = false ∧ complete skip stm st.1 k)
  ∧ (∀ p ip c ic, dict_get p st.1 = Some ip → c ∈ traversed_operands stm p →
                  dict_get c st.1 = Some ic → ic < ip)
  ∧ stack_inv skip stm root st.1 None st.2.

(** A graph whose three dictionaries have the same keys, as [__init__],
    [add_node] and [add_edge] keep them. *)
Definition graph_wf (G : ExpressionGraph) : Prop :=
  ∀ k, dict_contains k (nodes G) = true →
       is_Some (out_edges G !! k) ∧ is_Some (in_edges G !! k).

(** Keyword dictionary of vertex [i] of [n] with expression [k]: the last
    vertex carries the target flag. *)
Definition vertex_kwargs (n i : nat) (k : Expr) : kwargs :=
  if decide (i = pred n)
  then [("expression", VExpr k); ("target", VBool true)]
  else [("expression", VExpr k)].

(** The graph [build_graph_vertices] returns: vertex [i] holds the [i]-th
    key of the index map, the last vertex is flagged, no edges yet. *)
Definition vertices_of (m : dict Expr nat) : ExpressionGraph :=
  mkGraph ((λ iv, (iv.1, vertex_kwargs (length m) iv.1 iv.2)) <$> enumerate (dict_keys m))
          (foldl (λ o iv, <[iv.1:=[]]> o) ∅ (enumerate (dict_keys m)))
          (foldl (λ o iv, <[iv.1:=[]]> o) ∅ (enumerate (dict_keys m)))
          (Some m).

(** The wrapper case of [getops]: a terminal modifier without free
    indices, when the enumerator is asked to keep modified terminals
    whole. *)
Definition kept_whole (skip_terminal_modifiers : bool) (e : Expr) : bool :=
  skip_terminal_modifiers && _ufl_is_terminal_modifier_ e
  && bool_decide (ufl_free_indices e = []).

(** "Children strictly precede parents", read over every node of the
    mapping and every operand. *)
Definition children_precede_parents
  (expr : Expr) (skip : list string) (skip_terminal_modifiers : bool) : Prop :=
  ∃ m, _count_nodes_with_unique_post_traversal expr skip skip_terminal_modifiers = Some m
       ∧ dense m
       ∧ ∀ p ip c ic, dict_get p m = Some ip → c ∈ ufl_operands p →
                      dict_get c m = Some ic → ic < ip.


(** "An expression that is an operand of two different parents below the
    root is assigned an index", read over every tree and skip setting. *)
Definition every_shared_operand_indexed
  (expr : Expr) (skip : list string) (skip_terminal_modifiers : bool) : Prop :=
  ∃ m, _count_nodes_with_unique_post_traversal expr skip skip_terminal_modifiers = Some m
       ∧ ∀ x p1 p2,
           p1 ≠ p2 →
           reach skip_terminal_modifiers p1 expr → reach skip_terminal_modifiers p2 expr →
           x ∈ ufl_operands p1 → x ∈ ufl_operands p2 →
           ∃ i, dict_get x m = Some i.

(** What the enumerator's loop keeps besides [trav_inv]: keys and frames
    are expressions of the input tree, and a pending operand entry is an
    operand of its frame. *)
Definition trav_sound (stm : bool) (root : Expr) (st : trav) : Prop :=
  (∀ k, is_Some (dict_get k st.1) → reach stm k root)
  ∧ ∀ f : frame, f ∈ st.2 →
      reach stm f.1 root ∧ ∀ o, Some o ∈ f.2 → o ∈ traversed_operands stm f.1.

(** All nodes of the tree of [e], with repetitions, root first. *)
Fixpoint subterms (e : Expr) : list Expr :=
  e :: match e with
       | Terminal _ _ _ => []
       | Operator _ _ _ _ ops =>
           (fix below (l : list Expr) : list Expr :=
              match l with
              | [] => []
              | x :: l' => subterms x ++ below l'
              end) ops
       end.

(** The edge lists of a key, empty when the key has none. *)
Definition edges_at (edges : gmap nat (list nat)) (k : nat) : list nat :=
  default [] (edges !! k).

(** The in-edges are the out-edges read backwards: [j] occurs in the
    out-edges of [i] as often as [i] occurs in the in-edges of [j]. *)
Definition mirrored (G : ExpressionGraph) : Prop :=
  ∀ i j, count_occ Nat.eq_dec (edges_at (out_edges G) i) j
         = count_occ Nat.eq_dec (edges_at (in_edges G) j) i.

(** * Facts *)

(** Unfolds the sequencing of fallible steps. *)
Ltac raise_steps :=
  cbn [mbind result_bind mret result_ret rbind or_raise].

(** ** Dictionaries *)

Section dict_facts.
Context {K V : Type} `{EqDecision K}.
Implicit Types (d : dict K V) (k : K) (v : V).

Lemma dict_get_set_eq k v d : dict_get k (dict_set k v d) = Some v.
Proof.
  induction d as [|[k' v'] d IH]; simpl.
  - by rewrite decide_True.
  - destruct (decide (k = k')); simpl.
    + by rewrite decide_True.
    + by rewrite decide_False.
Qed.

Lemma dict_get_set_ne k k' v d : k ≠ k' → dict_get k' (dict_set k v d) = dict_get k' d.
Proof.
  intros Hne. induction d as [|[k0 v0] d IH]; simpl.
  - by rewrite decide_False.
  - destruct (decide (k = k0)) as [->|]; simpl.
    + by rewrite !decide_False.
    + by rewrite IH.
Qed.

Lemma dict_set_fresh k v d : dict_get k d = None → dict_set k v d = d ++ [(k, v)].
Proof.
  induction d as [|[k0 v0] d IH]; simpl; [done|].
  destruct (decide (k = k0)); [done|]. intros Hd. by rewrite IH.
Qed.

Lemma dict_get_Some_elem k v d : dict_get k d = Some v → (k, v) ∈ d.
Proof.
  induction d as [|[k0 v0] d IH]; simpl; [done|].
  destruct (decide (k = k0)) as [->|].
  - intros [= ->]. left.
  - intros Hd. right. auto.
Qed.

Lemma dict_get_None k d : dict_get k d = None ↔ k ∉ dict_keys d.
Proof.
  unfold dict_keys. induction d as [|[k0 v0] d IH]; simpl.
  - split; [intros _; apply not_elem_of_nil|done].
  - rewrite not_elem_of_cons. destruct (decide (k = k0)) as [->|]; [|tauto].
    split; [done|]. by intros [? _].
Qed.

Lemma dict_get_is_Some k d : is_Some (dict_get k d) ↔ k ∈ dict_keys d.
Proof.
  rewrite <-not_eq_None_Some, dict_get_None.
  destruct (decide (k ∈ dict_keys d)); tauto.
Qed.

Lemma dict_get_NoDup k v d : NoDup (dict_keys d) → (k, v) ∈ d → dict_get k d = Some v.
Proof.
  unfold dict_keys. induction d as [|[k0 v0] d IH]; simpl.
  - intros _ Hin. by apply elem_of_nil in Hin.
  - rewrite NoDup_cons. intros [Hk0 Hnd] Hin.
    apply elem_of_cons in Hin as [[= -> ->]|Hin].
    + by rewrite decide_True.
    + rewrite decide_False; [auto|].
      intros ->. apply Hk0. apply list_elem_of_fmap. by exists (k0, v).
Qed.

Lemma dict_contains_true k d : dict_contains k d = true ↔ is_Some (dict_get k d).
Proof.
  unfold dict_contains. destruct (dict_get k d) as [v|]; split; try done.
Qed.

Lemma dict_contains_false k d : dict_contains k d = false ↔ dict_get k d = None.
Proof. unfold dict_contains. by destruct (dict_get k d). Qed.

Lemma dict_set_length_old k v d :
  is_Some (dict_get k d) → length (dict_set k v d) = length d.
Proof.
  induction d as [|[k0 v0] d IH]; simpl.
  - by intros [? ?].
  - destruct (decide (k = k0)); simpl; auto.
Qed.
End dict_facts.

(** ** The enumerator's loop: termination *)

Lemma getops_traversed stm e : getops stm e = Some <$> traversed_operands stm e.
Proof.
  unfold getops, traversed_operands, is_opaque_unit.
  by destruct (_ || _).
Qed.

Lemma traversed_operands_operand stm c e :
  c ∈ traversed_operands stm e → c ∈ ufl_operands e.
Proof.
  unfold traversed_operands. destruct (is_opaque_unit stm e); [|done].
  intros Hc. by apply elem_of_nil in Hc.
Qed.

Lemma traversed_operands_plain e : traversed_operands false e = ufl_operands e.
Proof. unfold traversed_operands, is_opaque_unit. by destruct e. Qed.

Lemma operand_size c e : c ∈ ufl_operands e → expr_size c < expr_size e.
Proof.
  destruct e as [|m t s f ops]; simpl.
  - intros Hc. by apply elem_of_nil in Hc.
  - intros Hc. apply Nat.lt_succ_r.
    induction ops as [|x ops IH]; [by apply elem_of_nil in Hc|].
    apply elem_of_cons in Hc as [->|Hc]; [lia|].
    specialize (IH Hc). lia.
Qed.

Lemma ops_weight_cons o ops :
  ops_weight (o :: ops) = from_option (S ∘ trav_work) 0 o + ops_weight ops.
Proof. done. Qed.

Lemma getops_weight stm e : S (ops_weight (getops stm e)) ≤ trav_work e.
Proof.
  rewrite getops_traversed. unfold traversed_operands.
  destruct (is_opaque_unit stm e).
  - destruct e; simpl; unfold ops_weight; simpl; lia.
  - destruct e as [|m t s f ops]; simpl; [unfold ops_weight; simpl; lia|].
    apply le_n_S. induction ops as [|x ops IH]; [done|].
    rewrite fmap_cons, ops_weight_cons. simpl. lia.
Qed.

Lemma scan_ops_Some m i0 ops i o :
  scan_ops m i0 ops = Some (i, o) →
  ∃ j, i = i0 + j ∧ ops !! j = Some (Some o) ∧ dict_get o m = None.
Proof.
  revert i0. induction ops as [|[x|] ops IH]; intros i0; simpl; [done| |].
  - destruct (dict_contains x m) eqn:Hx.
    + intros (j & -> & ? & ?)%IH. exists (S j). split; [lia|done].
    + intros [= <- <-]. exists 0. split; [lia|]. split; [done|].
      by apply dict_contains_false.
  - intros (j & -> & ? & ?)%IH. exists (S j). split; [lia|done].
Qed.

Lemma scan_ops_None m i0 ops :
  scan_ops m i0 ops = None → ∀ o, Some o ∈ ops → is_Some (dict_get o m).
Proof.
  revert i0. induction ops as [|[x|] ops IH]; intros i0; simpl.
  - intros _ o Ho. by apply elem_of_nil in Ho.
  - destruct (dict_contains x m) eqn:Hx; [|done].
    intros Hs o [[= ->]|Ho]%elem_of_cons; [by apply dict_contains_true|eauto].
  - intros Hs o [?|Ho]%elem_of_cons; [done|eauto].
Qed.

Lemma ops_weight_consume ops j o :
  ops !! j = Some (Some o) →
  ops_weight (<[j:=None]> ops) + S (trav_work o) = ops_weight ops.
Proof.
  revert j. induction ops as [|x ops IH]; intros [|j]; simpl; try done.
  - intros [= ->]. rewrite !ops_weight_cons. simpl. lia.
  - intros Hj. rewrite !ops_weight_cons. specialize (IH _ Hj). lia.
Qed.

Lemma trav_step_None skip stm st : trav_step skip stm st = None ↔ st.2 = [].
Proof.
  unfold trav_step. destruct st as [m [|[e ops] below]]; simpl; [done|].
  split; [|done]. by repeat case_match.
Qed.

Lemma stack_weight_cons f below :
  stack_weight (f :: below) = S (ops_weight f.2) + stack_weight below.
Proof. done. Qed.

Lemma trav_step_decreases skip stm st st' :
  trav_step skip stm st = Some st' → stack_weight st'.2 < stack_weight st.2.
Proof.
  unfold trav_step. destruct st as [m [|[e ops] below]]; [done|].
  cbn [fst snd].
  destruct (scan_ops m 0 ops) as [[i o]|] eqn:Hscan.
  - intros [= <-]. cbn [fst snd].
    apply scan_ops_Some in Hscan as (j & -> & Hj & _).
    pose proof (ops_weight_consume _ _ _ Hj).
    pose proof (getops_weight stm o).
    rewrite !stack_weight_cons. cbn [fst snd plus]. lia.
  - rewrite stack_weight_cons.
    destruct (isinstance e _); intros [= <-]; cbn [fst snd]; lia.
Qed.

Lemma trav_loop_terminates skip stm (P : trav → Prop) :
  (∀ st st', P st → trav_step skip stm st = Some st' → P st') →
  ∀ fuel st, P st → stack_weight st.2 ≤ fuel →
             ∃ m, trav_loop fuel skip stm st = Some m ∧ P (m, []).
Proof.
  intros Hstep fuel. induction fuel as [|fuel IH]; intros st HP Hw; simpl.
  - destruct (trav_step skip stm st) as [st'|] eqn:Hst.
    + apply trav_step_decreases in Hst. lia.
    + apply trav_step_None in Hst. exists st.1. split; [done|].
      destruct st as [m stack]. simpl in *. by subst.
  - destruct (trav_step skip stm st) as [st'|] eqn:Hst.
    + apply IH; [eauto|]. apply trav_step_decreases in Hst. lia.
    + apply trav_step_None in Hst. exists st.1. split; [done|].
      destruct st as [m stack]. simpl in *. by subst.
Qed.

(** A completed run does not depend on the iteration budget it was given. *)
Lemma trav_loop_budget skip stm fuel1 fuel2 st m1 m2 :
  trav_loop fuel1 skip stm st = Some m1 →
  trav_loop fuel2 skip stm st = Some m2 → m1 = m2.
Proof.
  revert fuel2 st. induction fuel1 as [|fuel1 IH]; intros [|fuel2] st; simpl;
    destruct (trav_step skip stm st) as [st'|]; try congruence.
  apply IH.
Qed.

(** ** The enumerator's loop: what every iteration keeps *)

Section traversal_invariant.
Variables (skip : list string) (stm : bool) (root : Expr).

Lemma complete_mono m m' e :
  (∀ k, is_Some (dict_get k m) → is_Some (dict_get k m')) →
  complete skip stm m e → complete skip stm m' e.
Proof.
  intros Hmono He x Hx. destruct (He x Hx) as [?|?]; [by left|right; auto].
Qed.

Lemma complete_node m e :
  settled skip m e →
  (∀ c, c ∈ traversed_operands stm e → complete skip stm m c) →
  complete skip stm m e.
Proof.
  intros He Hc x Hx. inversion Hx as [|? c ? Hin Hreach]; subst; [done|].
  by apply (Hc c).
Qed.

Lemma complete_operand m e c :
  complete skip stm m e → c ∈ traversed_operands stm e → settled skip m c.
Proof.
  intros He Hc. apply He. eapply reach_step; [done|]. apply reach_refl.
Qed.

Lemma slot_ok_mono m m' pend x c :
  (∀ k, is_Some (dict_get k m) → is_Some (dict_get k m')) →
  slot_ok skip stm m pend x c → slot_ok skip stm m' pend x c.
Proof.
  intros Hmono [?|[? [?|?]]]; [by left| |].
  - right. split; [done|]. left. by eapply complete_mono.
  - right. split; [done|]. by right.
Qed.

Lemma stack_inv_unindexed m pend stack f :
  stack_inv skip stm root m pend stack → f ∈ stack → dict_get f.1 m = None.
Proof.
  revert pend. induction stack as [|g below IH]; intros pend; simpl.
  - intros _ Hf. by apply elem_of_nil in Hf.
  - intros (Hg & _ & _ & Hbelow) [->|Hf]%elem_of_cons; [done|]. eauto.
Qed.

Lemma stack_inv_sizes m o stack :
  stack_inv skip stm root m (Some o) stack →
  Forall (λ f : frame, expr_size o < expr_size f.1) stack.
Proof.
  revert o. induction stack as [|g below IH]; intros o; simpl; [done|].
  intros (_ & _ & Ho & Hbelow). specialize (Ho o eq_refl).
  apply traversed_operands_operand, operand_size in Ho.
  constructor; [done|].
  eapply Forall_impl; [by apply IH|]. simpl. intros f Hf. lia.
Qed.

Lemma stack_inv_extend m m' o stack :
  (∀ k, is_Some (dict_get k m) → is_Some (dict_get k m')) →
  (∀ f, f ∈ stack → dict_get f.1 m' = None) →
  stack_inv skip stm root m (Some o) stack →
  stack_inv skip stm root m' (Some o) stack.
Proof.
  intros Hmono. revert o. induction stack as [|g below IH]; intros o Hnew; simpl; [done|].
  intros (_ & Hops & Ho & Hbelow). split_and!.
  - apply Hnew. left.
  - eapply Forall2_impl; [done|]. intros x c. by apply slot_ok_mono.
  - done.
  - apply IH; [|done]. intros f Hf. apply Hnew. by right.
Qed.

Lemma stack_inv_resume m m' e stack :
  (∀ k, is_Some (dict_get k m) → is_Some (dict_get k m')) →
  (∀ f, f ∈ stack → dict_get f.1 m' = None) →
  complete skip stm m' e →
  (skipped skip e = false → dict_get e m' = Some (pred (length m'))) →
  stack_inv skip stm root m (Some e) stack →
  stack_inv skip stm root m' None stack.
Proof.
  intros Hmono Hnew He Hlast. destruct stack as [|g below]; simpl.
  - intros ->. done.
  - intros (_ & Hops & _ & Hbelow). split_and!.
    + apply Hnew. left.
    + eapply Forall2_impl; [done|]. intros x c [?|[? [?|[= ->]]]].
      * by left.
      * right. split; [done|]. left. by eapply complete_mono.
      * right. split; [done|]. by left.
    + done.
    + eapply stack_inv_extend; [done| |done]. intros f Hf. apply Hnew. by right.
Qed.

Lemma dense_bound m k i : dense m → dict_get k m = Some i → i < length m.
Proof.
  intros [Hval _] Hk. apply dict_get_Some_elem in Hk.
  assert (i ∈ m.*2) as Hi by (apply list_elem_of_fmap; by exists (k, i)).
  rewrite Hval in Hi. apply elem_of_seq in Hi. lia.
Qed.

Lemma dense_append m e :
  dense m → dict_get e m = None → dense (m ++ [(e, length m)]).
Proof.
  intros [Hval Hnd] He. split.
  - rewrite fmap_app, length_app, Hval. simpl.
    by rewrite Nat.add_1_r, seq_S.
  - unfold dict_keys in *. rewrite fmap_app. apply NoDup_app. split_and!.
    + done.
    + intros x Hx [->|Hnil%elem_of_nil]%elem_of_cons; [|done].
      by apply dict_get_None in He.
    + apply NoDup_singleton.
Qed.

Lemma trav_inv_init : trav_inv skip stm root ([], [(root, getops stm root)]).
Proof.
  split_and!; simpl.
  - split; [done|]. apply NoDup_nil_2.
  - by intros k [? ?].
  - done.
  - split_and!; try done.
    rewrite getops_traversed. apply Forall2_fmap_l, Forall_Forall2_diag.
    apply Forall_forall. intros c _. by left.
Qed.

Lemma trav_step_inv st st' :
  trav_inv skip stm root st → trav_step skip stm st = Some st' →
  trav_inv skip stm root st'.
Proof.
  destruct st as [m [|[e ops] below]]; [done|].
  intros (Hdense & Hmem & Hord & He & Hops & _ & Hbelow). unfold trav_step.
  cbn [fst snd] in *.
  destruct (scan_ops m 0 ops) as [[i o]|] eqn:Hscan.
  - (* descend into the first pending operand *)
    intros [= <-].
    apply scan_ops_Some in Hscan as (j & -> & Hj & Ho). cbn [plus].
    destruct (Forall2_lookup_l _ _ _ _ _ Hops Hj) as (c & Hc & Hslot).
    assert (c = o) as -> by (destruct Hslot as [[= ->]|[? _]]; done).
    assert (o ∈ traversed_operands stm e) as Hin by (by eapply list_elem_of_lookup_2).
    split_and!; try done; cbn [fst snd stack_inv].
    split_and!; try done.
    + rewrite getops_traversed. apply Forall2_fmap_l, Forall_Forall2_diag.
      apply Forall_forall. intros c _. by left.
    + rewrite <-(list_insert_id _ _ _ Hc). apply Forall2_insert.
      * eapply Forall2_impl; [done|]. intros x c [?|[? [?|?]]]; [by left| |done].
        right. split; [done|]. by left.
      * right. split; [done|]. by right.
    + by intros ? [= <-].
  - (* all operands handled: number the node and pop *)
    assert (∀ c, c ∈ traversed_operands stm e → complete skip stm m c) as Hkids.
    { intros c (k & Hk)%list_elem_of_lookup.
      destruct (Forall2_lookup_r _ _ _ _ _ Hops Hk) as (x & Hx & [->|[_ [?|?]]]);
        [|done|done].
      apply Hmem. eapply scan_ops_None; [done|]. by eapply list_elem_of_lookup_2. }
    fold (skipped skip e). destruct (skipped skip e) eqn:Hskip; intros [= <-].
    + split_and!; try done. cbn [fst snd].
      eapply stack_inv_resume; [done| | | |done].
      * intros f Hf. by eapply stack_inv_unindexed.
      * apply complete_node; [by left|done].
      * intros ?. congruence.
    + rewrite (dict_set_fresh _ _ _ He).
      assert (∀ k, is_Some (dict_get k m) →
                   is_Some (dict_get k (m ++ [(e, length m)]))) as Hmono.
      { intros k Hk. rewrite <-(dict_set_fresh _ _ _ He).
        destruct (decide (e = k)) as [->|Hne].
        - rewrite dict_get_set_eq. by eexists.
        - by rewrite dict_get_set_ne. }
      assert (complete skip stm (m ++ [(e, length m)]) e) as Hcomplete.
      { apply complete_node.
        - right. rewrite <-(dict_set_fresh _ _ _ He), dict_get_set_eq. by eexists.
        - intros c Hc. eapply complete_mono; [done|]. by apply Hkids. }
      split_and!; cbn [fst snd].
      * by apply dense_append.
      * intros k Hk. destruct (decide (e = k)) as [<-|Hne]; [done|].
        rewrite <-(dict_set_fresh _ _ _ He), dict_get_set_ne in Hk by done.
        destruct (Hmem k Hk) as [? ?]. split; [done|]. by eapply complete_mono.
      * intros p ip c ic Hp Hc Hic.
        rewrite <-(dict_set_fresh _ _ _ He) in Hp, Hic.
        assert (e ≠ c) as Hec.
        { intros <-. destruct (decide (e = p)) as [<-|Hne].
          - apply traversed_operands_operand, operand_size in Hc. lia.
          - rewrite dict_get_set_ne in Hp by done.
            destruct (Hmem p (mk_is_Some _ _ Hp)) as [_ Hp'].
            destruct (complete_operand _ _ _ Hp' Hc) as [?|[? ?]]; congruence. }
        rewrite dict_get_set_ne in Hic by done.
        destruct (decide (e = p)) as [<-|Hne].
        -- rewrite dict_get_set_eq in Hp. injection Hp as <-.
           by eapply dense_bound.
        -- rewrite dict_get_set_ne in Hp by done. eauto.
      * eapply stack_inv_resume; [done| |done| |done].
        -- intros f Hf. rewrite <-(dict_set_fresh _ _ _ He).
           pose proof (stack_inv_sizes _ _ _ Hbelow) as Hsz.
           rewrite Forall_forall in Hsz. specialize (Hsz f Hf).
           rewrite dict_get_set_ne by (intros ->; lia).
           by eapply stack_inv_unindexed.
        -- intros _. rewrite length_app. simpl. rewrite Nat.add_1_r. simpl.
           by rewrite <-(dict_set_fresh _ _ _ He), dict_get_set_eq.
Qed.
End traversal_invariant.

(** The enumerator returns, and its result satisfies the invariant with
    the work stack empty. *)
Lemma count_nodes_spec expr skip stm :
  ∃ m, _count_nodes_with_unique_post_traversal expr skip stm = Some m
       ∧ trav_inv skip stm expr (m, []).
Proof.
  unfold _count_nodes_with_unique_post_traversal.
  apply (trav_loop_terminates skip stm (trav_inv skip stm expr)).
  - intros st st'. apply trav_step_inv.
  - apply trav_inv_init.
  - cbn [snd]. rewrite stack_weight_cons. cbn [snd].
    pose proof (getops_weight stm expr). unfold stack_weight. simpl. lia.
Qed.

(** ** Loops over the graph object *)

Lemma enumerate_lookup {A} (l : list A) i : enumerate l !! i = (i,.) <$> l !! i.
Proof. unfold enumerate. by rewrite list_lookup_imap. Qed.

Lemma enumerate_keys {A} (l : list A) : (enumerate l).*1 = seq 0 (length l).
Proof.
  apply list_eq. intros i. rewrite list_lookup_fmap, enumerate_lookup.
  destruct (l !! i) as [x|] eqn:Hi; simpl.
  - apply lookup_lt_Some in Hi. by rewrite lookup_seq_lt.
  - apply lookup_ge_None in Hi. by rewrite lookup_seq_ge.
Qed.

Lemma dict_get_indexed {A V} (g : nat * A → V) (l : list A) i :
  dict_get i ((λ iv, (iv.1, g iv)) <$> enumerate l) = (λ x, g (i, x)) <$> l !! i.
Proof.
  assert (dict_keys ((λ iv, (iv.1, g iv)) <$> enumerate l) = seq 0 (length l)) as Hkeys.
  { unfold dict_keys. rewrite <-list_fmap_compose, <-enumerate_keys. done. }
  destruct (l !! i) as [x|] eqn:Hi; simpl.
  - apply dict_get_NoDup; [rewrite Hkeys; apply NoDup_seq|].
    apply list_elem_of_fmap. exists (i, x). split; [done|].
    apply list_elem_of_lookup. exists i. by rewrite enumerate_lookup, Hi.
  - apply dict_get_None. rewrite Hkeys, elem_of_seq.
    apply lookup_ge_None in Hi. lia.
Qed.

Lemma for_each_add_node {A} (kw : A → kwargs) (l : list (nat * A)) G :
  for_each (λ iv, add_node iv.1 (kw iv.2)) l G
  = (mkGraph (foldl (λ d iv, dict_set iv.1 (kw iv.2) d) (nodes G) l)
             (foldl (λ o iv, <[iv.1:=[]]> o) (out_edges G) l)
             (foldl (λ o iv, <[iv.1:=[]]> o) (in_edges G) l)
             (e2i G),
     Ok ()).
Proof.
  revert G. induction l as [|iv l IH]; intros G; simpl.
  - by destruct G.
  - by rewrite IH.
Qed.

Lemma foldl_dict_set_fresh {A V} (g : nat * A → V) (l : list (nat * A)) (d : dict nat V) :
  NoDup (dict_keys d ++ l.*1) →
  foldl (λ d iv, dict_set iv.1 (g iv) d) d l = d ++ ((λ iv, (iv.1, g iv)) <$> l).
Proof.
  revert d. induction l as [|iv l IH]; intros d Hnd; simpl.
  - by rewrite app_nil_r.
  - rewrite dict_set_fresh.
    + rewrite IH; [by rewrite <-app_assoc|].
      unfold dict_keys in *. rewrite fmap_app. simpl. by rewrite <-app_assoc.
    + apply dict_get_None. apply NoDup_app in Hnd as (_ & Hnd & _).
      intros Hin. apply (Hnd _ Hin). left.
Qed.

Lemma foldl_insert_nil_lookup {A} (l : list (nat * A)) (o : gmap nat (list nat)) k :
  foldl (λ o iv, <[iv.1:=[]]> o) o l !! k
  = if decide (k ∈ l.*1) then Some [] else o !! k.
Proof.
  revert o. induction l as [|iv l IH]; intros o; simpl; [done|].
  rewrite IH. destruct (decide (k ∈ l.*1)) as [Hin|Hout].
  - rewrite decide_True; [done|]. by right.
  - destruct (decide (k = iv.1)) as [->|Hne].
    + rewrite lookup_insert_eq. rewrite decide_True; [done|]. left.
    + rewrite lookup_insert_ne by done. rewrite decide_False; [done|].
      intros [?|?]%elem_of_cons; done.
Qed.

Lemma mapM_result_cons {A B} (f : A → result B) (x : A) (l : list A) :
  mapM f (x :: l) = rbind (f x) (λ y, rbind (mapM f l) (λ k, Ok (y :: k))).
Proof. done. Qed.

Lemma mapM_Ok {A B} (f : A → result B) (l : list A) (k : list B) :
  mapM f l = Ok k ↔ Forall2 (λ x y, f x = Ok y) l k.
Proof.
  revert k. induction l as [|x l IH]; intros k.
  - split; [intros [= <-]; constructor|by intros ->%Forall2_nil_inv_l].
  - rewrite mapM_result_cons. split.
    + destruct (f x) as [y|] eqn:Hx; [|done].
      destruct (mapM f l) as [k'|] eqn:Hl; [|done].
      intros [= <-]. constructor; [done|]. by apply IH.
    + intros (y & k' & Hx & Hl & ->)%Forall2_cons_inv_l.
      apply IH in Hl. by rewrite Hx, Hl.
Qed.

Lemma add_edge_Ok i j G G' :
  add_edge i j G = (G', Ok ()) →
  ∃ out1 in2,
    dict_contains i (nodes G) = true ∧ dict_contains j (nodes G) = true
    ∧ out_edges G !! i = Some out1 ∧ in_edges G !! j = Some in2
    ∧ G' = mkGraph (nodes G) (<[i:=out1 ++ [j]]> (out_edges G))
                   (<[j:=in2 ++ [i]]> (in_edges G)) (e2i G).
Proof.
  unfold add_edge.
  destruct (dict_contains i (nodes G)), (dict_contains j (nodes G)); simpl; try done.
  destruct (out_edges G !! i) as [out1|]; [|done].
  destruct (in_edges G !! j) as [in2|]; [|done].
  intros [= <-]. by exists out1, in2.
Qed.

Lemma add_edges_from_Ok i js G G' :
  add_edges_from (i, js) G = (G', Ok ()) →
  nodes G' = nodes G ∧ e2i G' = e2i G
  ∧ ∀ k, out_edges G' !! k
         = if decide (k = i) then (.++ js) <$> out_edges G !! k else out_edges G !! k.
Proof.
  unfold add_edges_from. cbn [fst snd]. revert G.
  induction js as [|j js IH]; intros G; simpl.
  - intros [= <-]. split_and!; try done. intros k. case_decide; [|done].
    destruct (out_edges G !! k); simpl; [|done]. by rewrite app_nil_r.
  - destruct (add_edge i j G) as [G1 [[]|e]] eqn:Hedge; [|done].
    intros (Hn & He & Ho)%IH.
    apply add_edge_Ok in Hedge as (out1 & in2 & _ & _ & Hout & _ & ->).
    simpl in *. split_and!; try done. intros k. rewrite Ho.
    case_decide as Hk.
    + subst k. rewrite lookup_insert_eq, Hout. simpl. by rewrite <-app_assoc.
    + by rewrite lookup_insert_ne.
Qed.

Lemma for_each_add_edges_Ok (l : list (nat * list nat)) G G' :
  NoDup l.*1 →
  for_each add_edges_from l G = (G', Ok ()) →
  nodes G' = nodes G ∧ e2i G' = e2i G
  ∧ ∀ k, out_edges G' !! k
         = match dict_get k l with
           | Some js => (.++ js) <$> out_edges G !! k
           | None => out_edges G !! k
           end.
Proof.
  revert G. induction l as [|[i js] l IH]; intros G Hnd; simpl.
  - by intros [= <-].
  - apply NoDup_cons in Hnd as [Hi Hnd].
    destruct (add_edges_from (i, js) G) as [G1 [[]|e]] eqn:Hedges; [|done].
    intros (Hn & He & Ho)%IH; [|done].
    apply add_edges_from_Ok in Hedges as (Hn1 & He1 & Ho1).
    split_and!; [congruence..|]. intros k. rewrite Ho, Ho1.
    destruct (decide (k = i)) as [->|Hne]; [|done].
    assert (dict_get i l = None) as -> by (by apply dict_get_None).
    done.
Qed.

(** ** The vertex builder *)

Lemma sorted_insert_head {A} (f : A → nat) (x : A) (l : list A) :
  (∀ y, head l = Some y → f x ≤ f y) → sorted_insert f x l = x :: l.
Proof.
  destruct l as [|y l]; simpl; [done|].
  intros Hy. by rewrite decide_True by auto.
Qed.

Lemma sorted_ascending {A} (f : A → nat) (l : list A) a :
  f <$> l = seq a (length l) → sorted f l = l.
Proof.
  revert a. induction l as [|x l IH]; intros a; [done|].
  simpl. intros [= Hx Hl]. unfold sorted in *. simpl.
  rewrite (IH _ Hl). apply sorted_insert_head.
  destruct l as [|y l]; simpl; [done|]. intros ? [= <-].
  simpl in Hl. injection Hl as Hy _. lia.
Qed.

Lemma e2i_get_keys m : NoDup (dict_keys m) → e2i_get m <$> dict_keys m = m.*2.
Proof.
  intros Hnd. unfold dict_keys. rewrite <-list_fmap_compose.
  apply list_fmap_ext. intros i [k v] Hi. unfold e2i_get. simpl.
  rewrite (dict_get_NoDup k v); [done..|]. by eapply list_elem_of_lookup_2.
Qed.

Lemma dense_lookup m k i : dense m → dict_get k m = Some i → m !! i = Some (k, i).
Proof.
  intros [Hval _] Hk. apply dict_get_Some_elem, list_elem_of_lookup in Hk as [j Hj].
  assert (m.*2 !! j = Some i) as Hi by (by rewrite list_lookup_fmap, Hj).
  rewrite Hval in Hi. apply lookup_seq in Hi as [-> _]. done.
Qed.

Lemma dense_keys_lookup m k i :
  dense m → (dict_get k m = Some i ↔ dict_keys m !! i = Some k).
Proof.
  intros Hdense. split.
  - intros Hk%dense_lookup; [|done]. unfold dict_keys.
    by rewrite list_lookup_fmap, Hk.
  - unfold dict_keys. rewrite list_lookup_fmap.
    destruct (m !! i) as [[k' v]|] eqn:Hi; [|done]. simpl. intros [= ->].
    assert (m.*2 !! i = Some v) as Hv by (by rewrite list_lookup_fmap, Hi).
    destruct Hdense as [Hval Hnd]. rewrite Hval in Hv.
    apply lookup_seq in Hv as [-> _]. simpl.
    apply dict_get_NoDup; [done|]. by eapply list_elem_of_lookup_2.
Qed.

Lemma dict_set_NoDup {K V} `{EqDecision K} (k : K) (v : V) (d : dict K V) :
  NoDup (dict_keys d) → is_Some (dict_get k d) →
  dict_set k v d = (λ kv, if decide (k = kv.1) then (k, v) else kv) <$> d.
Proof.
  unfold dict_keys. induction d as [|[k' v'] d IH]; simpl.
  - by intros _ [? ?].
  - intros [Hk' Hnd]%NoDup_cons Hk. destruct (decide (k = k')) as [->|Hne].
    + f_equal. symmetry. erewrite list_fmap_ext; [apply list_fmap_id|].
      intros i [k0 v0] Hi. simpl. rewrite decide_False; [done|].
      intros ->. apply Hk'. apply list_elem_of_fmap. exists (k0, v0).
      split; [done|]. by eapply list_elem_of_lookup_2.
    + f_equal. by apply IH.
Qed.

Lemma build_graph_vertices_spec expr skip stm :
  ∃ m, _count_nodes_with_unique_post_traversal expr skip stm = Some m
       ∧ trav_inv skip stm expr (m, [])
       ∧ build_graph_vertices expr skip stm
         = if skipped skip expr then Raise (KeyError "e2i") else Ok (vertices_of m).
Proof.
  destruct (count_nodes_spec expr skip stm) as (m & Hm & Hinv).
  exists m. split; [done|]. split; [done|].
  destruct Hinv as (Hdense & Hmem & _ & Hroot & Hlast). cbn [fst snd] in *.
  unfold build_graph_vertices. rewrite Hm. raise_steps.
  assert (sorted (e2i_get m) (dict_keys m) = dict_keys m) as ->.
  { apply (sorted_ascending _ _ 0). rewrite e2i_get_keys by apply Hdense.
    destruct Hdense as [-> _]. unfold dict_keys. by rewrite length_fmap. }
  rewrite (for_each_add_node (λ v, [("expression", VExpr v)])).
  cbn [nodes out_edges in_edges e2i new_graph]. raise_steps.
  rewrite foldl_dict_set_fresh
    by (cbn [dict_keys fmap list_fmap app]; rewrite enumerate_keys; apply NoDup_seq).
  cbn [app].
  destruct (skipped skip expr) eqn:Hskip.
  - destruct (dict_get expr m) as [i|] eqn:Hexpr; [|done].
    destruct (Hmem expr (mk_is_Some _ _ Hexpr)). congruence.
  - specialize (Hlast eq_refl). rewrite Hlast. raise_steps.
    pose proof (dense_bound _ _ _ Hdense Hlast) as Hlt.
    apply dense_keys_lookup in Hlast; [|done].
    rewrite (dict_get_indexed (λ iv, [("expression", VExpr iv.2)])), Hlast.
    cbn [fmap option_fmap option_map snd]. raise_steps.
    unfold vertices_of. do 2 f_equal.
    rewrite dict_set_NoDup.
    + rewrite <-list_fmap_compose. apply list_fmap_ext.
      intros i [j k] Hi. rewrite enumerate_lookup in Hi.
      destruct (dict_keys m !! i) as [k'|] eqn:Hk; [|done]. injection Hi as <- <-.
      unfold vertex_kwargs. simpl. destruct (decide (pred (length m) = i)) as [<-|Hne].
      * rewrite decide_True by done. by simplify_eq.
      * by rewrite decide_False.
    + unfold dict_keys. rewrite <-list_fmap_compose.
      change (NoDup (enumerate (dict_keys m)).*1). rewrite enumerate_keys. apply NoDup_seq.
    + rewrite (dict_get_indexed (λ iv, [("expression", VExpr iv.2)])), Hlast. by eexists.
Qed.

(** ** The enumerator: order, density, determinism *)

(** C1, as stated, fails: with [skip_terminal_modifiers] set, the
    restricted coefficient of [f('+') / f] is kept whole and numbered 0
    before its own operand [f], which the division brings in as number 1. *)
Lemma children_precede_parents_fails_on_kept_whole :
  ¬ children_precede_parents restricted_over_plain [] true.
Proof.
  intros (m & Hm & _ & Hord). vm_compute in Hm. injection Hm as <-.
  specialize (Hord (positive_restricted (coefficient 0)) 0 (coefficient 0) 1).
  assert (1 < 0); [|lia]. apply Hord; [done| |done].
  apply list_elem_of_singleton. done.
Qed.

(** C1 (amended): the enumerator always returns; the indices it assigns
    are exactly 0 .. N-1, one per key, in insertion order; and every node
    of the mapping that is not kept whole as a modified terminal has each
    of its operands that is in the mapping at a strictly smaller index.
    With [skip_terminal_modifiers] off no node is kept whole. *)
Theorem count_nodes_children_before_parents expr skip stm :
  ∃ m, _count_nodes_with_unique_post_traversal expr skip stm = Some m
       ∧ m.*2 = seq 0 (length m)
       ∧ NoDup (dict_keys m)
       ∧ ∀ p ip c ic, dict_get p m = Some ip → c ∈ ufl_operands p →
                      kept_whole stm p = false →
                      dict_get c m = Some ic → ic < ip.
Proof.
  destruct (count_nodes_spec expr skip stm) as (m & Hm & [Hval Hnd] & _ & Hord & _).
  exists m. split_and!; try done. cbn [fst] in Hord.
  intros p ip c ic Hp Hc Hkept Hic. apply (Hord p ip c ic); try done.
  unfold traversed_operands, is_opaque_unit. fold (kept_whole stm p). rewrite Hkept.
  destruct p; [by apply elem_of_nil in Hc|done].
Qed.

(** C6: two completed runs of the enumerator's loop on the same tree with
    the same skip arguments, whatever iteration budget each was given,
    end with the same mapping, which is the one the enumerator returns:
    every node has the same index in both. *)
Theorem count_nodes_deterministic expr skip stm fuel1 fuel2 m1 m2 :
  trav_loop fuel1 skip stm ([], [(expr, getops stm expr)]) = Some m1 →
  trav_loop fuel2 skip stm ([], [(expr, getops stm expr)]) = Some m2 →
  m1 = m2
  ∧ _count_nodes_with_unique_post_traversal expr skip stm = Some m1
  ∧ ∀ e, dict_get e m1 = dict_get e m2.
Proof.
  intros H1 H2.
  assert (m1 = m2) as <- by (by eapply trav_loop_budget).
  split_and!; try done.
  destruct (count_nodes_spec expr skip stm) as (m & Hm & _). rewrite Hm. f_equal.
  by eapply trav_loop_budget.
Qed.

Lemma count_nodes_deterministic_witness :
  let m := [(coefficient 0, 0); (coefficient 1, 1);
            (product (coefficient 0) (coefficient 1), 2); (ab_plus_ab, 3)] in
  m = m
  ∧ _count_nodes_with_unique_post_traversal ab_plus_ab ["MultiIndex"] false = Some m
  ∧ ∀ e, dict_get e m = dict_get e m.
Proof.
  apply (count_nodes_deterministic ab_plus_ab ["MultiIndex"] false 9 40);
    vm_compute; reflexivity.
Defined.

(** ** The container's methods *)

Lemma graph_wf_new : graph_wf new_graph.
Proof. intros k. unfold dict_contains. simpl. done. Qed.

Lemma graph_wf_add_node k kw G : graph_wf G → graph_wf (add_node k kw G).1.
Proof.
  intros Hwf k'. simpl. destruct (decide (k = k')) as [<-|Hne].
  - intros _. rewrite !lookup_insert_eq. split; by eexists.
  - rewrite !lookup_insert_ne by done. unfold dict_contains.
    rewrite dict_get_set_ne by done. apply Hwf.
Qed.

Lemma graph_wf_add_edge n1 n2 G : graph_wf G → graph_wf (add_edge n1 n2 G).1.
Proof.
  intros Hwf. unfold add_edge.
  destruct (negb _ || negb _); [done|].
  destruct (out_edges G !! n1) as [out1|] eqn:Hout; [|done]. cbn [in_edges].
  destruct (in_edges G !! n2) as [in2|] eqn:Hin; cbn [fst].
  - intros k Hk. cbn [nodes out_edges in_edges] in *.
    destruct (Hwf k Hk) as [? ?]. split.
    + destruct (decide (n1 = k)) as [->|]; [rewrite lookup_insert_eq; by eexists|].
      by rewrite lookup_insert_ne.
    + destruct (decide (n2 = k)) as [->|]; [rewrite lookup_insert_eq; by eexists|].
      by rewrite lookup_insert_ne.
  - intros k Hk. cbn [nodes out_edges in_edges] in *.
    destruct (Hwf k Hk) as [? ?]. split; [|done].
    destruct (decide (n1 = k)) as [->|]; [rewrite lookup_insert_eq; by eexists|].
    by rewrite lookup_insert_ne.
Qed.

Lemma graph_wf_vertices expr skip stm G :
  build_graph_vertices expr skip stm = Ok G → graph_wf G.
Proof.
  destruct (build_graph_vertices_spec expr skip stm) as (m & _ & _ & ->).
  destruct (skipped skip expr); [done|]. intros [= <-] k Hk.
  apply dict_contains_true, dict_get_is_Some in Hk.
  unfold vertices_of, dict_keys in *. cbn [nodes out_edges in_edges] in *.
  rewrite <-list_fmap_compose in Hk.
  change (k ∈ (enumerate m.*1).*1) in Hk.
  rewrite !foldl_insert_nil_lookup, !decide_True by done. split; by eexists.
Qed.

(** C3: [add_edge] with an endpoint that is not a registered node raises
    [KeyError] and leaves the graph, hence every out-edge and in-edge
    list, as it was; with both endpoints registered, on a graph whose
    nodes all have their two edge lists (as the methods keep them), it
    appends [n2] to the out-edges of [n1] and [n1] to the in-edges of
    [n2], and changes nothing else. *)
Theorem add_edge_checks_endpoints G n1 n2 :
  (dict_contains n1 (nodes G) && dict_contains n2 (nodes G) = false →
   add_edge n1 n2 G = (G, Raise (KeyError "Adding edge to unknown node")))
  ∧ (dict_contains n1 (nodes G) && dict_contains n2 (nodes G) = true →
     graph_wf G →
     ∃ out1 in2,
       out_edges G !! n1 = Some out1 ∧ in_edges G !! n2 = Some in2
       ∧ add_edge n1 n2 G
         = (mkGraph (nodes G) (<[n1:=out1 ++ [n2]]> (out_edges G))
                    (<[n2:=in2 ++ [n1]]> (in_edges G)) (e2i G),
            Ok ())).
Proof.
  unfold add_edge. split.
  - by destruct (dict_contains n1 (nodes G)), (dict_contains n2 (nodes G)).
  - intros [H1 H2]%andb_true_iff Hwf. rewrite H1, H2. cbn [negb orb].
    destruct (Hwf n1 H1) as [[out1 Hout] _], (Hwf n2 H2) as [_ [in2 Hin]].
    exists out1, in2. rewrite Hout. cbn [in_edges]. by rewrite Hin.
Qed.

Lemma add_edge_checks_endpoints_witness :
  let G := (add_node 1 [] (add_node 0 [] new_graph).1).1 in
  add_edge 0 2 G = (G, Raise (KeyError "Adding edge to unknown node"))
  ∧ ∃ out1 in2,
      out_edges G !! 0 = Some out1 ∧ in_edges G !! 1 = Some in2
      ∧ add_edge 0 1 G
        = (mkGraph (nodes G) (<[0:=out1 ++ [1]]> (out_edges G))
                   (<[1:=in2 ++ [0]]> (in_edges G)) (e2i G),
           Ok ()).
Proof.
  split.
  - apply (add_edge_checks_endpoints (add_node 1 [] (add_node 0 [] new_graph).1).1 0 2).
    reflexivity.
  - apply (add_edge_checks_endpoints (add_node 1 [] (add_node 0 [] new_graph).1).1 0 1).
    + reflexivity.
    + intros [|[|k]] Hk; [split; eexists; vm_compute; reflexivity..|].
      vm_compute in Hk. discriminate.
Defined.

(** C10: [add_node] never raises; afterwards the key holds the new
    payload and two empty edge lists, whatever it held before; an existing
    key is replaced in place (the node count stays), and no other key is
    touched. *)
Theorem add_node_replaces G k kw :
  ∃ G', add_node k kw G = (G', Ok ())
        ∧ dict_get k (nodes G') = Some kw
        ∧ out_edges G' !! k = Some []
        ∧ in_edges G' !! k = Some []
        ∧ (is_Some (dict_get k (nodes G)) → number_of_nodes G' = number_of_nodes G)
        ∧ ∀ k', k' ≠ k →
                dict_get k' (nodes G') = dict_get k' (nodes G)
                ∧ out_edges G' !! k' = out_edges G !! k'
                ∧ in_edges G' !! k' = in_edges G !! k'.
Proof.
  eexists. split; [done|]. cbn [nodes out_edges in_edges]. split_and!.
  - apply dict_get_set_eq.
  - apply lookup_insert_eq.
  - apply lookup_insert_eq.
  - unfold number_of_nodes. cbn [nodes]. apply dict_set_length_old.
  - intros k' Hne. rewrite dict_get_set_ne, !lookup_insert_ne by done. done.
Qed.

(** ** The scalar rebuilder: the symbol table *)

Lemma store_symbol_Ok st sw st' :
  store_symbol st sw = Ok st' →
  (st.1 !! sw.1 = Some None ∧ st' = (<[sw.1:=Some sw.2]> st.1, {[sw.1]} ∪ st.2))
  ∨ (∃ x, st.1 !! sw.1 = Some (Some x) ∧ sw.1 ∈ st.2 ∧ st' = st).
Proof.
  unfold store_symbol. destruct (st.1 !! sw.1) as [[x|]|] eqn:Hs; [| |done].
  - case_bool_decide; [|done]. intros [= <-]. right. eauto.
  - intros [= <-]. by left.
Qed.

Lemma store_symbol_keeps st sw st' k x :
  store_symbol st sw = Ok st' →
  st.1 !! k = Some (Some x) → st'.1 !! k = Some (Some x).
Proof.
  intros [[Hs ->]|(y & _ & _ & ->)]%store_symbol_Ok Hk; [|done].
  cbn [fst]. rewrite list_lookup_insert_ne; [done|]. intros <-. congruence.
Qed.

Lemma store_symbol_handled st sw st' :
  store_symbol st sw = Ok st' → st.2 ⊆ st'.2.
Proof.
  intros [[Hs ->]|(y & _ & _ & ->)]%store_symbol_Ok; [|done]. cbn [snd]. set_solver.
Qed.

Lemma store_symbols_keeps st l st' :
  store_symbols st l = Ok st' →
  st.2 ⊆ st'.2 ∧ ∀ k x, st.1 !! k = Some (Some x) → st'.1 !! k = Some (Some x).
Proof.
  revert st. induction l as [|sw l IH]; intros st; simpl.
  - by intros [= <-].
  - destruct (store_symbol st sw) as [st1|] eqn:Hsw; raise_steps; [|done].
    intros Hl. apply IH in Hl as [Hh Hk]. split.
    + apply store_symbol_handled in Hsw. by etrans.
    + intros k x Hx. eapply Hk, store_symbol_keeps; done.
Qed.

Lemma store_symbols_asserts st l j s w x :
  l !! j = Some (s, w) →
  st.1 !! s = Some (Some x) → s ∉ st.2 →
  (∀ j' sw', j' < j → l !! j' = Some sw' → sw'.1 < length st.1) →
  store_symbols st l = Raise AssertionError.
Proof.
  revert j st. induction l as [|sw l IH]; intros j st Hj Hs Hh Hrange; [done|].
  cbn [store_symbols]. destruct j as [|j].
  - injection Hj as ->. unfold store_symbol. cbn [fst snd]. rewrite Hs.
    by rewrite bool_decide_eq_false_2.
  - assert (sw.1 < length st.1) as Hsw by (apply (Hrange 0); [lia|done]).
    apply lookup_lt_is_Some in Hsw as [slot Hslot].
    unfold store_symbol at 1. rewrite Hslot.
    destruct slot as [y|].
    + destruct (bool_decide (sw.1 ∈ st.2)); raise_steps; [|done].
      apply (IH j); [done..|].
      intros j' sw' Hlt. apply (Hrange (S j')). lia.
    + raise_steps. apply (IH j); cbn [fst snd].
      * done.
      * rewrite list_lookup_insert_ne; [done|]. intros <-. congruence.
      * rewrite elem_of_union, elem_of_singleton. intros [->|?]; [congruence|done].
      * intros j' sw' Hlt Hsw'. rewrite length_insert. apply (Hrange (S j')); [lia|done].
Qed.

Section rebuild_facts.
Variable is_modified_terminal : Expr → bool.
Variable reconstruct : Expr → list (list (option Expr)) → result (list Expr).
Variable getitem : Expr → list nat → Expr.

Lemma rebuild_node_asserts G V W iv expr vs ws j s x :
  get_expression iv.2 = Ok expr →
  V !! iv.1 = Some vs →
  all_filled W vs = Ok false →
  node_scalars is_modified_terminal reconstruct getitem G V W expr vs = Ok ws →
  vs !! j = Some s → j < length ws →
  W !! s = Some (Some x) →
  (∀ j' s', j' < j → vs !! j' = Some s' → s' < length W) →
  rebuild_node is_modified_terminal reconstruct getitem G V W iv = Raise AssertionError.
Proof.
  intros Hexpr Hvs Hfilled Hws Hj Hlen Hs Hrange.
  unfold rebuild_node. rewrite Hexpr. raise_steps. rewrite Hvs. raise_steps.
  rewrite Hfilled. raise_steps. rewrite Hws. raise_steps.
  apply lookup_lt_is_Some in Hlen as [w Hw].
  rewrite (store_symbols_asserts (W, ∅) (zip vs ws) j s w x); [done|..].
  - by apply lookup_zip_Some.
  - done.
  - cbn [snd]. apply not_elem_of_empty.
  - intros j' [s' w'] Hlt [Hs' _]%lookup_zip_Some. cbn [fst]. by apply (Hrange j').
Qed.

Lemma rebuild_node_keeps G V W iv W' k x :
  rebuild_node is_modified_terminal reconstruct getitem G V W iv = Ok W' →
  W !! k = Some (Some x) → W' !! k = Some (Some x).
Proof.
  unfold rebuild_node. raise_steps.
  destruct (get_expression iv.2) as [expr|]; raise_steps; [|done].
  destruct (V !! iv.1) as [vs|]; raise_steps; [|done].
  destruct (all_filled W vs) as [[|]|]; raise_steps; [| |done].
  - by intros [= <-].
  - destruct (node_scalars _ _ _ G V W expr vs) as [ws|]; raise_steps; [|done].
    destruct (store_symbols (W, ∅) (zip vs ws)) as [st|] eqn:Hst; raise_steps; [|done].
    intros [= <-]. apply store_symbols_keeps in Hst as [_ Hst]. apply Hst.
Qed.

Lemma rebuild_nodes_keeps G V W l W' k x :
  rebuild_nodes is_modified_terminal reconstruct getitem G V W l = Ok W' →
  W !! k = Some (Some x) → W' !! k = Some (Some x).
Proof.
  revert W. induction l as [|iv l IH]; intros W; simpl.
  - by intros [= <-].
  - destruct (rebuild_node _ _ _ G V W iv) as [W1|] eqn:Hiv; raise_steps; [|done].
    intros HW' Hk. eapply IH; [done|]. by eapply rebuild_node_keeps.
Qed.

Lemma rebuild_nodes_app G V W l1 l2 :
  rebuild_nodes is_modified_terminal reconstruct getitem G V W (l1 ++ l2)
  = rbind (rebuild_nodes is_modified_terminal reconstruct getitem G V W l1)
          (λ W1, rebuild_nodes is_modified_terminal reconstruct getitem G V W1 l2).
Proof.
  revert W. induction l1 as [|iv l1 IH]; intros W; simpl; [done|].
  destruct (rebuild_node _ _ _ G V W iv) as [W1|]; raise_steps; [|done]. apply IH.
Qed.
End rebuild_facts.

(** C5: a slot of the symbol table is written only while it is empty; a
    symbol whose slot is already filled is accepted, without any write,
    only if it was filled earlier in the same node's storing loop (the
    [handled] set), and raises [AssertionError] otherwise; once written in
    a storing loop a slot is not written again in it; over the whole
    rebuild loop a filled slot keeps the expression it holds; and, every
    node starting its storing loop with an empty [handled] set, a node
    that is not skipped and comes with a symbol whose slot an earlier node
    has filled makes [rebuild_with_scalar_subexpressions] raise
    [AssertionError], provided the symbols before it in the node's
    sequence have a slot. *)
Theorem symbol_slots_written_once :
  (∀ st sw st',
      store_symbol st sw = Ok st' →
      (st.1 !! sw.1 = Some None ∧ st' = (<[sw.1:=Some sw.2]> st.1, {[sw.1]} ∪ st.2))
      ∨ (∃ x, st.1 !! sw.1 = Some (Some x) ∧ sw.1 ∈ st.2 ∧ st' = st))
  ∧ (∀ st sw x,
        st.1 !! sw.1 = Some (Some x) → sw.1 ∉ st.2 →
        store_symbol st sw = Raise AssertionError)
  ∧ (∀ st sw st' l st'' w,
        st.1 !! sw.1 = Some None → store_symbol st sw = Ok st' →
        store_symbols st' l = Ok st'' →
        st''.1 !! sw.1 = Some (Some sw.2) ∧ store_symbol st'' (sw.1, w) = Ok st'')
  ∧ (∀ imt rc gi G V W l W' s x,
        rebuild_nodes imt rc gi G V W l = Ok W' →
        W !! s = Some (Some x) → W' !! s = Some (Some x))
  ∧ (∀ cs imt rc gi G V total before i kw after W expr vs ws j s x,
        cs G = Ok (V, total) →
        nodes G = before ++ (i, kw) :: after →
        rebuild_nodes imt rc gi G V (replicate total None) before = Ok W →
        get_expression kw = Ok expr →
        V !! i = Some vs →
        all_filled W vs = Ok false →
        node_scalars imt rc gi G V W expr vs = Ok ws →
        vs !! j = Some s → j < length ws →
        W !! s = Some (Some x) →
        (∀ j' s', j' < j → vs !! j' = Some s' → s' < length W) →
        rebuild_with_scalar_subexpressions cs imt rc gi G = Raise AssertionError).
Proof.
  split_and!.
  - apply store_symbol_Ok.
  - intros st sw x Hs Hh. unfold store_symbol. rewrite Hs.
    by rewrite bool_decide_eq_false_2.
  - intros st sw st' l st'' w Hempty Hsw Hl.
    apply store_symbol_Ok in Hsw as [[_ ->]|(x & Hx & _)]; [|congruence].
    apply store_symbols_keeps in Hl as [Hh Hk]. cbn [fst snd] in *.
    assert (st''.1 !! sw.1 = Some (Some sw.2)) as Hfilled.
    { apply Hk. apply list_lookup_insert_eq. by eapply lookup_lt_Some. }
    split; [done|]. unfold store_symbol. cbn [fst snd]. rewrite Hfilled.
    rewrite bool_decide_eq_true_2; [done|]. set_solver.
  - intros imt rc gi G V W l W' s x. apply rebuild_nodes_keeps.
  - intros cs imt rc gi G V total before i kw after W expr vs ws j s x
           Hcs Hnodes Hbefore Hexpr Hvs Hfilled Hws Hj Hlen Hs Hrange.
    unfold rebuild_with_scalar_subexpressions. raise_steps. rewrite Hcs. raise_steps.
    rewrite Hnodes, rebuild_nodes_app, Hbefore. cbn [rebuild_nodes]; raise_steps.
    by rewrite (rebuild_node_asserts imt rc gi G V W (i, kw) expr vs ws j s x).
Qed.

Lemma symbol_slots_written_once_witness :
  build_graph_vertices f_times_v0 ["MultiIndex"] false
  = Ok (vertices_of [(coefficient 0, 0); (vector_coefficient 1, 1);
                     (indexed (vector_coefficient 1) (multi_index 0), 2);
                     (f_times_v0, 3)])
  ∧ rebuild_with_scalar_subexpressions
      clashing_compute_symbols sample_is_modified_terminal sample_reconstruct
      sample_getitem
      (vertices_of [(coefficient 0, 0); (vector_coefficient 1, 1);
                    (indexed (vector_coefficient 1) (multi_index 0), 2);
                    (f_times_v0, 3)])
    = Raise AssertionError.
Proof.
  split; [vm_compute; reflexivity|].
  destruct symbol_slots_written_once as (_ & _ & _ & _ & Hclash).
  apply (Hclash
           clashing_compute_symbols sample_is_modified_terminal sample_reconstruct
           sample_getitem
           (vertices_of [(coefficient 0, 0); (vector_coefficient 1, 1);
                         (indexed (vector_coefficient 1) (multi_index 0), 2);
                         (f_times_v0, 3)])
           [[0]; [0; 1; 2]; [1]; [3]] 4
           [(0, [("expression", VExpr (coefficient 0))])]
           1 [("expression", VExpr (vector_coefficient 1))]
           [(2, [("expression", VExpr (indexed (vector_coefficient 1) (multi_index 0)))]);
            (3, [("expression", VExpr f_times_v0); ("target", VBool true)])]
           [Some (coefficient 0); None; None; None]
           (vector_coefficient 1) [0; 1; 2]
           (sample_getitem (vector_coefficient 1) <$> [[0]; [1]; [2]])
           0 0 (coefficient 0));
    try (vm_compute; reflexivity).
  - vm_compute. lia.
  - intros j' s' Hlt. lia.
Defined.

(** ** The scalar rebuilder: arity and scalar terminals *)

(** C4: when the rebuild loop reaches a node that is not a modified
    terminal, does not skip it, and the reconstruction rule called on the
    operands' scalars returns a list whose length differs from the number
    of symbols of the node, [rebuild_with_scalar_subexpressions] raises
    [RuntimeError]: nothing is truncated or duplicated. *)
Theorem reconstruct_arity_mismatch_raises
  cs imt rc gi G V total before i kw after W expr vs sops wops ws :
  cs G = Ok (V, total) →
  nodes G = before ++ (i, kw) :: after →
  rebuild_nodes imt rc gi G V (replicate total None) before = Ok W →
  get_expression kw = Ok expr →
  V !! i = Some vs →
  all_filled W vs = Ok false →
  imt expr = false →
  mapM (operand_symbols G V) (ufl_operands expr) = Ok sops →
  mapM (mapM (fetch W)) sops = Ok wops →
  rc expr wops = Ok ws →
  length ws ≠ length vs →
  rebuild_with_scalar_subexpressions cs imt rc gi G
  = Raise (RuntimeError "Expecting one symbol for each expression.").
Proof.
  intros Hcs Hnodes Hbefore Hexpr Hvs Hfilled Himt Hsops Hwops Hws Hlen.
  unfold rebuild_with_scalar_subexpressions. raise_steps. rewrite Hcs. raise_steps.
  rewrite Hnodes, rebuild_nodes_app, Hbefore. cbn [rebuild_nodes]; raise_steps.
  assert (rebuild_node imt rc gi G V W (i, kw)
          = Raise (RuntimeError "Expecting one symbol for each expression.")) as ->; [|done].
  unfold rebuild_node, node_scalars. cbn [fst snd]. raise_steps.
  rewrite Hexpr, Hvs. raise_steps. rewrite Hfilled. raise_steps.
  rewrite Himt, Hsops. raise_steps. rewrite Hwops. raise_steps. rewrite Hws. raise_steps.
  rewrite bool_decide_eq_true_2 by congruence. done.
Qed.

Lemma reconstruct_arity_mismatch_raises_witness :
  build_graph_vertices a_times_b ["MultiIndex"] false
  = Ok (vertices_of [(coefficient 0, 0); (coefficient 1, 1); (a_times_b, 2)])
  ∧ rebuild_with_scalar_subexpressions
      sample_compute_symbols sample_is_modified_terminal two_for_one_reconstruct
      sample_getitem
      (vertices_of [(coefficient 0, 0); (coefficient 1, 1); (a_times_b, 2)])
    = Raise (RuntimeError "Expecting one symbol for each expression.").
Proof.
  split; [vm_compute; reflexivity|].
  apply (reconstruct_arity_mismatch_raises
           sample_compute_symbols sample_is_modified_terminal two_for_one_reconstruct
           sample_getitem
           (vertices_of [(coefficient 0, 0); (coefficient 1, 1); (a_times_b, 2)])
           [[0]; [1]; [2]] 3
           [(0, [("expression", VExpr (coefficient 0))]);
            (1, [("expression", VExpr (coefficient 1))])]
           2 [("expression", VExpr a_times_b); ("target", VBool true)] []
           [Some (coefficient 0); Some (coefficient 1); None]
           a_times_b [2] [[0]; [1]]
           [[Some (coefficient 0)]; [Some (coefficient 1)]]
           [a_times_b; a_times_b]);
    try (vm_compute; reflexivity).
  vm_compute. lia.
Defined.

(** What the three outcomes of the skip test say about the table: the
    test reads the symbols in order up to the first one whose slot is
    empty ([False]) or missing ([IndexError]), and is [True] when there is
    none. *)
Lemma all_filled_outcomes W vs :
  match all_filled W vs with
  | Ok true => ∀ s, s ∈ vs → ∃ x, W !! s = Some (Some x)
  | Ok false =>
      ∃ j s, vs !! j = Some s ∧ W !! s = Some None
             ∧ ∀ j' s', j' < j → vs !! j' = Some s' → ∃ x, W !! s' = Some (Some x)
  | Raise e =>
      e = IndexError
      ∧ ∃ j s, vs !! j = Some s ∧ length W ≤ s
               ∧ ∀ j' s', j' < j → vs !! j' = Some s' → ∃ x, W !! s' = Some (Some x)
  end.
Proof.
  induction vs as [|s0 vs IH]; cbn [all_filled]; [by intros s ?%elem_of_nil|].
  destruct (W !! s0) as [[x|]|] eqn:Hs0.
  - destruct (all_filled W vs) as [[|]|e].
    + intros s [->|Hs]%elem_of_cons; [by exists x|by apply IH].
    + destruct IH as (j & s & Hj & Hs & Hbefore). exists (S j), s. split_and!; [done..|].
      intros [|j'] s' Hlt Hs'; [injection Hs' as <-; by exists x|].
      apply (Hbefore j'); [lia|done].
    + destruct IH as (-> & j & s & Hj & Hs & Hbefore). split; [done|].
      exists (S j), s. split_and!; [done..|].
      intros [|j'] s' Hlt Hs'; [injection Hs' as <-; by exists x|].
      apply (Hbefore j'); [lia|done].
  - exists 0, s0. split_and!; [done..|]. intros j' s' Hlt. lia.
  - split; [done|]. exists 0, s0. split_and!; [done|by apply lookup_ge_None|].
    intros j' s' Hlt. lia.
Qed.




(** ** The target vertex *)



(** ** The final scalar graph *)

Lemma dict_get_enumerate {A} (l : list A) i : dict_get i (enumerate l) = l !! i.
Proof.
  rewrite <-(list_fmap_id (enumerate l)).
  rewrite (list_fmap_ext id (λ iv, (iv.1, iv.2)) (enumerate l)) by (by intros ? [? ?]).
  rewrite (dict_get_indexed snd). by destruct (l !! i).
Qed.

Lemma get_expression_vertex n i e : get_expression (vertex_kwargs n i e) = Ok e.
Proof. unfold vertex_kwargs. by case_decide. Qed.

Lemma vertices_of_lookup m i :
  nodes (vertices_of m) !! i
  = (λ e, (i, vertex_kwargs (length m) i e)) <$> dict_keys m !! i.
Proof.
  unfold vertices_of. cbn [nodes]. rewrite list_lookup_fmap, enumerate_lookup.
  by destruct (dict_keys m !! i).
Qed.

Lemma vertices_of_out_edges m i :
  i < length m → out_edges (vertices_of m) !! i = Some [].
Proof.
  intros Hi. unfold vertices_of. cbn [out_edges].
  rewrite foldl_insert_nil_lookup, decide_True; [done|].
  rewrite enumerate_keys. unfold dict_keys. rewrite length_fmap.
  apply elem_of_seq. lia.
Qed.

Lemma node_deps_vertex m n i e d :
  node_deps (vertices_of m) (i, vertex_kwargs n i e) = Ok d →
  if has_no_dependencies e then d = []
  else Forall2 (λ o j, dict_get o m = Some j) (ufl_operands e) d.
Proof.
  unfold node_deps. cbn [snd]. rewrite get_expression_vertex. raise_steps.
  destruct (has_no_dependencies e); [by intros [= <-]|].
  intros Hd%mapM_Ok. eapply Forall2_impl; [done|].
  intros o j. unfold get_e2i, vertices_of. cbn [e2i]. raise_steps.
  destruct (dict_get o m) as [j'|]; raise_steps; [|done]. by intros [= <-].
Qed.

(** What [build_scalar_graph] returns: the vertices of the enumeration of
    some scalar expression, and for each vertex the out-edges computed
    from its operands. *)
Lemma scalar_graph_spec cs imt rc gi expression G :
  build_scalar_graph cs imt rc gi expression = Ok G →
  ∃ scalar_expression m,
    _count_nodes_with_unique_post_traversal scalar_expression [] true = Some m
    ∧ trav_inv [] true scalar_expression (m, [])
    ∧ e2i G = Some m
    ∧ nodes G = nodes (vertices_of m)
    ∧ ∀ i e, dict_keys m !! i = Some e →
             ∃ js, out_edges G !! i = Some js
                   ∧ if has_no_dependencies e then js = []
                     else Forall2 (λ o j, dict_get o m = Some j) (ufl_operands e) js.
Proof.
  unfold build_scalar_graph.
  destruct (build_graph_vertices expression ["MultiIndex"] false) as [G1|];
    raise_steps; [|done].
  destruct (rebuild_with_scalar_subexpressions cs imt rc gi G1) as [[se|]|];
    raise_steps; [|done|done].
  destruct (build_graph_vertices_spec se [] true) as (m & Hm & Hinv & ->).
  destruct (skipped [] se); raise_steps; [done|].
  destruct (mapM (node_deps (vertices_of m)) (nodes (vertices_of m)))
    as [V_deps|] eqn:Hdeps; raise_steps; [|done].
  destruct (for_each _ (enumerate V_deps) (vertices_of m)) as [G' [[]|]] eqn:Hedges;
    raise_steps; [|done].
  intros [= <-].
  apply for_each_add_edges_Ok in Hedges as (Hnodes & He2i & Hout);
    [|rewrite enumerate_keys; apply NoDup_seq].
  exists se, m. split_and!; try done.
  intros i e Hi. rewrite Hout, dict_get_enumerate.
  apply mapM_Ok in Hdeps.
  assert (nodes (vertices_of m) !! i = Some (i, vertex_kwargs (length m) i e)) as Hnode
    by (by rewrite vertices_of_lookup, Hi).
  destruct (Forall2_lookup_l _ _ _ _ _ Hdeps Hnode) as (d & -> & Hd).
  rewrite vertices_of_out_edges.
  - exists d. split; [done|]. by eapply node_deps_vertex.
  - apply lookup_lt_Some in Hi. unfold dict_keys in Hi. by rewrite length_fmap in Hi.
Qed.

Lemma vertices_of_elem m i kw :
  (i, kw) ∈ nodes (vertices_of m) →
  ∃ e, dict_keys m !! i = Some e ∧ kw = vertex_kwargs (length m) i e.
Proof.
  intros (j & Hj)%list_elem_of_lookup. rewrite vertices_of_lookup in Hj.
  destruct (dict_keys m !! j) as [e|] eqn:He; [|done].
  injection Hj as <- <-. by exists e.
Qed.

(** C7: in the graph [build_scalar_graph] returns, a node whose expression
    is a terminal, or a terminal modifier without free indices, has an
    empty out-edge list, and every other node has as out-edge list the
    indices of its operands, position by position: same length, same
    order, a repeated operand repeated. *)
Theorem scalar_graph_edges_follow_operands cs imt rc gi expression G :
  build_scalar_graph cs imt rc gi expression = Ok G →
  ∃ m, e2i G = Some m
       ∧ ∀ i kw expr,
           (i, kw) ∈ nodes G → get_expression kw = Ok expr →
           ∃ js, out_edges G !! i = Some js
                 ∧ if has_no_dependencies expr then js = []
                   else Forall2 (λ o j, dict_get o m = Some j) (ufl_operands expr) js.
Proof.
  intros (se & m & _ & _ & He2i & Hnodes & Hout)%scalar_graph_spec.
  exists m. split; [done|]. intros i kw expr Hin Hexpr. rewrite Hnodes in Hin.
  apply vertices_of_elem in Hin as (e & He & ->).
  rewrite get_expression_vertex in Hexpr. injection Hexpr as <-. by apply Hout.
Qed.

Lemma scalar_graph_edges_follow_operands_witness :
  (∃ m, e2i ab_plus_ab_graph = Some m
        ∧ ∀ i kw expr,
            (i, kw) ∈ nodes ab_plus_ab_graph → get_expression kw = Ok expr →
            ∃ js, out_edges ab_plus_ab_graph !! i = Some js
                  ∧ if has_no_dependencies expr then js = []
                    else Forall2 (λ o j, dict_get o m = Some j) (ufl_operands expr) js)
  ∧ out_edges ab_plus_ab_graph !! 3 = Some [2; 2]
  ∧ out_edges ab_plus_ab_graph !! 2 = Some [0; 1]
  ∧ out_edges ab_plus_ab_graph !! 0 = Some [].
Proof.
  split.
  - apply (scalar_graph_edges_follow_operands
             sample_compute_symbols sample_is_modified_terminal sample_reconstruct
             sample_getitem ab_plus_ab ab_plus_ab_graph).
    vm_compute. reflexivity.
  - vm_compute. done.
Defined.

(** ** Shared subexpressions *)

(** C2, as stated, fails: in [A[0] / B[0]] the multi-index is an operand
    of both indexing nodes, and with multi-indices skipped (as in the first
    pass of [build_scalar_graph]) the enumerator gives it no index. *)
Lemma shared_multi_index_not_indexed :
  ¬ every_shared_operand_indexed a0_over_b0 ["MultiIndex"] false.
Proof.
  intros (m & Hm & Hshared). vm_compute in Hm. injection Hm as <-.
  destruct (Hshared (multi_index 0)
              (indexed (vector_coefficient 0) (multi_index 0))
              (indexed (vector_coefficient 1) (multi_index 0))) as [i Hi].
  - intros [=].
  - eapply reach_step; [|apply reach_refl]. apply list_elem_of_In. simpl. auto.
  - eapply reach_step; [|apply reach_refl]. apply list_elem_of_In. simpl. auto.
  - apply list_elem_of_In. simpl. auto.
  - apply list_elem_of_In. simpl. auto.
  - vm_compute in Hi. discriminate.
Qed.

(** C2 (amended): the enumerator's mapping has one entry per key; an
    expression of a skipped kind gets no index; every expression that is
    reachable from the root through operands the enumerator descends into
    and is not of a skipped kind gets exactly one index, however many
    paths lead to it, and is the expression of exactly one node of the
    graph [build_graph_vertices] returns. In the graph [build_scalar_graph]
    returns, every node with dependency edges refers, at each operand
    position, to that operand's single index. For [a*b + a*b] the
    enumerator yields [a], [b], [a*b] and the sum, and the sum's two
    out-edges both point to the node of [a*b]. *)
Theorem shared_subexpression_single_node :
  (∀ expr skip stm,
      ∃ m, _count_nodes_with_unique_post_traversal expr skip stm = Some m
           ∧ NoDup (dict_keys m)
           ∧ (∀ x, skipped skip x = true → dict_get x m = None)
           ∧ (∀ x, reach stm x expr → skipped skip x = false →
                   ∃ i, dict_get x m = Some i
                        ∧ ∀ j, dict_keys m !! j = Some x ↔ j = i)
           ∧ ∀ G, build_graph_vertices expr skip stm = Ok G →
                  e2i G = Some m
                  ∧ ∀ x i, dict_get x m = Some i →
                           (∃ kw, (i, kw) ∈ nodes G ∧ get_expression kw = Ok x)
                           ∧ ∀ j kw, (j, kw) ∈ nodes G →
                                     get_expression kw = Ok x → j = i)
  ∧ (∀ cs imt rc gi expression G,
        build_scalar_graph cs imt rc gi expression = Ok G →
        ∃ m, e2i G = Some m
             ∧ ∀ p ip k o,
                 dict_get p m = Some ip → has_no_dependencies p = false →
                 ufl_operands p !! k = Some o →
                 ∃ io js, dict_get o m = Some io
                          ∧ out_edges G !! ip = Some js ∧ js !! k = Some io)
  ∧ _count_nodes_with_unique_post_traversal ab_plus_ab [] false
    = Some [(coefficient 0, 0); (coefficient 1, 1); (a_times_b, 2); (ab_plus_ab, 3)]
  ∧ build_scalar_graph sample_compute_symbols sample_is_modified_terminal
      sample_reconstruct sample_getitem ab_plus_ab
    = Ok ab_plus_ab_graph
  ∧ out_edges ab_plus_ab_graph !! 3 = Some [2; 2].
Proof.
  split_and!; [| |vm_compute; reflexivity..].
  - intros expr skip stm.
    destruct (build_graph_vertices_spec expr skip stm) as (m & Hm & Hinv & HG).
    destruct Hinv as (Hdense & Hmem & _ & Hroot & _). cbn [fst snd] in *.
    exists m. split_and!; [done|apply Hdense| | |].
    + intros x Hx. destruct (dict_get x m) as [i|] eqn:Hi; [|done].
      destruct (Hmem x (mk_is_Some _ _ Hi)). congruence.
    + intros x Hreach Hx. destruct (Hroot x Hreach) as [?|[i Hi]]; [congruence|].
      exists i. split; [done|]. intros j.
      rewrite <-dense_keys_lookup by done. split; [congruence|by intros ->].
    + intros G. rewrite HG. destruct (skipped skip expr); [done|]. intros [= <-].
      split; [done|]. intros x i Hi. split.
      * exists (vertex_kwargs (length m) i x). split; [|apply get_expression_vertex].
        apply list_elem_of_lookup. exists i. rewrite vertices_of_lookup.
        apply dense_keys_lookup in Hi; [|done]. by rewrite Hi.
      * intros j kw (e & He & ->)%vertices_of_elem.
        rewrite get_expression_vertex. intros [= ->].
        apply dense_keys_lookup in He; [|done]. congruence.
  - intros cs imt rc gi expression G
      (se & m & _ & Hinv & He2i & _ & Hout)%scalar_graph_spec.
    exists m. split; [done|]. intros p ip k o Hp Hdeps Ho.
    destruct Hinv as (Hdense & _). cbn [fst] in Hdense.
    apply dense_keys_lookup in Hp; [|done].
    destruct (Hout ip p Hp) as (js & Hjs & Hall). rewrite Hdeps in Hall.
    destruct (Forall2_lookup_l _ _ _ _ _ Hall Ho) as (io & Hio & Hget).
    by exists io, js.
Qed.


(** ** Further facts about the builders *)

(** Every edge of the final graph points to a node inserted before its
    source: in the graph [build_scalar_graph] returns, the out-edges of a
    node are indices strictly below the node's own. *)
Theorem scalar_graph_edges_point_backwards cs imt rc gi expression G :
  build_scalar_graph cs imt rc gi expression = Ok G →
  ∀ i kw js j, (i, kw) ∈ nodes G → out_edges G !! i = Some js → j ∈ js → j < i.
Proof.
  intros (se & m & _ & Hinv & _ & Hnodes & Hout)%scalar_graph_spec i kw js j Hin Hjs Hj.
  rewrite Hnodes in Hin. apply vertices_of_elem in Hin as (e & He & _).
  destruct (Hout i e He) as (js' & Hjs' & Hall).
  assert (js' = js) as -> by congruence.
  destruct Hinv as (Hdense & _ & Hord & _). cbn [fst] in *.
  destruct (has_no_dependencies e) eqn:Hdeps.
  - subst js. by apply elem_of_nil in Hj.
  - apply list_elem_of_lookup in Hj as [k Hk].
    destruct (Forall2_lookup_r _ _ _ _ _ Hall Hk) as (o & Ho & Hget).
    apply (Hord e i o j); [by apply dense_keys_lookup| |done].
    unfold traversed_operands, is_opaque_unit. unfold has_no_dependencies in Hdeps.
    cbn [andb]. rewrite Hdeps. by eapply list_elem_of_lookup_2.
Qed.

Lemma scalar_graph_edges_point_backwards_witness :
  out_edges ab_plus_ab_graph !! 3 = Some [2; 2] ∧ 2 < 3.
Proof.
  split; [vm_compute; reflexivity|].
  apply (scalar_graph_edges_point_backwards
           sample_compute_symbols sample_is_modified_terminal sample_reconstruct
           sample_getitem ab_plus_ab ab_plus_ab_graph eq_refl
           3 [("expression", VExpr ab_plus_ab); ("target", VBool true)] [2; 2] 2).
  - apply list_elem_of_In. vm_compute. auto.
  - vm_compute. reflexivity.
  - apply list_elem_of_In. simpl. auto.
Defined.

(** A root of a skipped kind is never indexed, so [build_graph_vertices]
    raises [KeyError] when it looks the root up. *)
Theorem build_graph_vertices_skipped_root expr skip stm :
  isinstance expr ("Label" :: skip) = true →
  build_graph_vertices expr skip stm = Raise (KeyError "e2i").
Proof.
  intros Hskip. destruct (build_graph_vertices_spec expr skip stm) as (m & _ & _ & ->).
  unfold skipped. by rewrite Hskip.
Qed.

Lemma build_graph_vertices_skipped_root_witness :
  build_graph_vertices (multi_index 0) ["MultiIndex"] false = Raise (KeyError "e2i").
Proof.
  apply (build_graph_vertices_skipped_root (multi_index 0) ["MultiIndex"] false).
  reflexivity.
Defined.


(** ** The enumerator indexes the tree and nothing else *)

Lemma reach_trans stm x y z : reach stm x y → reach stm y z → reach stm x z.
Proof.
  intros Hxy Hyz. induction Hyz as [|y c z Hc Hyc IH]; [done|].
  eapply reach_step; [done|]. by apply IH.
Qed.

Lemma reach_operand stm o e root :
  reach stm e root → o ∈ traversed_operands stm e → reach stm o root.
Proof.
  intros He Ho. eapply reach_trans; [|done].
  eapply reach_step; [done|]. apply reach_refl.
Qed.

Lemma trav_sound_init stm root : trav_sound stm root ([], [(root, getops stm root)]).
Proof.
  split; cbn [fst snd].
  - by intros k [? ?].
  - intros f ->%list_elem_of_singleton. cbn [fst snd]. split; [apply reach_refl|].
    intros o. rewrite getops_traversed.
    intros (c & [= <-] & Hc)%list_elem_of_fmap. done.
Qed.

Lemma trav_step_sound skip stm root st st' :
  trav_sound stm root st → trav_step skip stm st = Some st' → trav_sound stm root st'.
Proof.
  destruct st as [m [|[e ops] below]]; [done|].
  intros [Hkeys Hframes]. unfold trav_step. cbn [fst snd] in *.
  destruct (Hframes (e, ops)) as [He Hops]; [left|]. cbn [fst snd] in *.
  destruct (scan_ops m 0 ops) as [[i o]|] eqn:Hscan.
  - intros [= <-]. apply scan_ops_Some in Hscan as (j & -> & Hj & _).
    assert (o ∈ traversed_operands stm e) as Ho
      by (apply Hops; by eapply list_elem_of_lookup_2).
    split; cbn [fst snd]; [done|].
    intros f [->|[->|Hf]%elem_of_cons]%elem_of_cons; cbn [fst snd].
    + split; [by eapply reach_operand|].
      intros c. rewrite getops_traversed.
      by intros (c' & [= <-] & Hc)%list_elem_of_fmap.
    + split; [done|]. intros c (k & Hk)%list_elem_of_lookup.
      destruct (decide (k = j)) as [->|Hne].
      * rewrite list_lookup_insert_eq in Hk by (by eapply lookup_lt_Some). done.
      * rewrite list_lookup_insert_ne in Hk by done.
        apply Hops. by eapply list_elem_of_lookup_2.
    + apply Hframes. by right.
  - assert (∀ f : frame, f ∈ below →
              reach stm f.1 root ∧ ∀ o, Some o ∈ f.2 → o ∈ traversed_operands stm f.1)
      as Hbelow by (intros f Hf; apply Hframes; by right).
    destruct (isinstance e _); intros [= <-]; (split; cbn [fst snd]; [|done]); [done|].
    intros k Hk. destruct (decide (e = k)) as [<-|Hne]; [done|].
    rewrite dict_get_set_ne in Hk by done. by apply Hkeys.
Qed.

Lemma count_nodes_sound expr skip stm :
  ∃ m, _count_nodes_with_unique_post_traversal expr skip stm = Some m
       ∧ trav_inv skip stm expr (m, [])
       ∧ trav_sound stm expr (m, []).
Proof.
  unfold _count_nodes_with_unique_post_traversal.
  destruct (trav_loop_terminates skip stm
              (λ st, trav_inv skip stm expr st ∧ trav_sound stm expr st))
    with (fuel := trav_work expr) (st := ([] : list (Expr * nat),
                                          [(expr, getops stm expr)]))
    as (m & Hm & Hinv & Hsound).
  - intros st st' [Hinv Hsound] Hstep. split.
    + by eapply trav_step_inv.
    + by eapply trav_step_sound.
  - split; [apply trav_inv_init|apply trav_sound_init].
  - cbn [snd]. rewrite stack_weight_cons. cbn [snd].
    pose proof (getops_weight stm expr). unfold stack_weight. simpl. lia.
  - by exists m.
Qed.

(** The keys of the enumerator's mapping are exactly the expressions that
    lie below the root along operands the traversal descends into and are
    not of a skipped kind. *)
Theorem count_nodes_domain expr skip stm :
  ∃ m, _count_nodes_with_unique_post_traversal expr skip stm = Some m
       ∧ ∀ x, is_Some (dict_get x m)
              ↔ reach stm x expr ∧ isinstance x ("Label" :: skip) = false.
Proof.
  destruct (count_nodes_sound expr skip stm) as (m & Hm & Hinv & [Hkeys _]).
  destruct Hinv as (_ & Hmem & _ & Hroot & _). cbn [fst snd] in *.
  exists m. split; [done|]. intros x. split.
  - intros Hx. split; [by apply Hkeys|]. by destruct (Hmem x Hx).
  - intros [Hreach Hskip]. destruct (Hroot x Hreach) as [Hs|?]; [|done].
    unfold skipped in Hs. congruence.
Qed.

(** ** The number of vertices *)

Lemma Expr_operands_ind (P : Expr → Prop) :
  (∀ m i s, P (Terminal m i s)) →
  (∀ m t s f ops, Forall P ops → P (Operator m t s f ops)) →
  ∀ e, P e.
Proof.
  intros Hterminal Hoperator. fix IH 1. intros [m i s|m t s f ops].
  - apply Hterminal.
  - apply Hoperator. induction ops as [|x ops IHops]; constructor; [apply IH|done].
Qed.

Lemma subterms_length e : length (subterms e) = expr_size e.
Proof.
  induction e as [m i s|m t s f ops IH] using Expr_operands_ind; [done|].
  simpl. f_equal. induction IH as [|x ops Hx _ IHops]; [done|].
  by rewrite length_app, Hx, IHops.
Qed.

Lemma subterms_self e : e ∈ subterms e.
Proof. destruct e; left. Qed.

Lemma subterms_operand x c e :
  c ∈ ufl_operands e → x ∈ subterms c → x ∈ subterms e.
Proof.
  destruct e as [|m t s f ops]; simpl; [by intros ?%elem_of_nil|].
  intros Hc Hx. right. induction ops as [|y ops IH]; [by apply elem_of_nil in Hc|].
  apply elem_of_app. apply elem_of_cons in Hc as [<-|Hc]; [by left|right; auto].
Qed.

Lemma reach_subterms stm x e : reach stm x e → x ∈ subterms e.
Proof.
  induction 1 as [e|x c e Hc _ IH]; [apply subterms_self|].
  eapply subterms_operand; [|done]. by eapply traversed_operands_operand.
Qed.

(** Sharing never inflates the graph: [build_graph_vertices] makes at
    least one vertex and at most as many as the input tree has nodes. *)
Theorem vertex_count_bounded expr skip stm G :
  build_graph_vertices expr skip stm = Ok G →
  1 ≤ number_of_nodes G ≤ expr_size expr.
Proof.
  destruct (build_graph_vertices_spec expr skip stm) as (m & Hm & Hinv & ->).
  destruct (skipped skip expr) eqn:Hskip; [done|]. intros [= <-].
  destruct (count_nodes_sound expr skip stm) as (m' & Hm' & _ & [Hkeys _]).
  assert (m' = m) as -> by congruence. cbn [fst] in Hkeys.
  destruct Hinv as (Hdense & _ & _ & _ & Hlast). cbn [fst snd] in *.
  assert (number_of_nodes (vertices_of m) = length (dict_keys m)) as ->.
  { unfold number_of_nodes, vertices_of, enumerate. cbn [nodes].
    by rewrite length_fmap, length_imap. }
  split.
  - pose proof (dense_bound _ _ _ Hdense (Hlast Hskip)) as Hlt.
    unfold dict_keys. rewrite length_fmap. lia.
  - rewrite <-subterms_length. apply submseteq_length, NoDup_submseteq; [apply Hdense|].
    intros x Hx. eapply reach_subterms, Hkeys. by apply dict_get_is_Some.
Qed.

Lemma vertex_count_bounded_witness :
  1 ≤ number_of_nodes (vertices_of [(coefficient 0, 0); (coefficient 1, 1);
                                    (a_times_b, 2); (ab_plus_ab, 3)])
  ≤ expr_size ab_plus_ab.
Proof.
  apply (vertex_count_bounded ab_plus_ab [] false). vm_compute. reflexivity.
Defined.

(** ** Vertices and index map name each other *)

(** In the graph [build_graph_vertices] returns the node keys are
    [0 .. N-1] in insertion order, with [N] the size of the index map;
    every node has two empty edge lists and no other key has any; and
    [G.nodes[i]['expression']] is [v] exactly when [G.e2i[v]] is [i]. *)
Theorem vertices_and_index_are_inverse expr skip stm G :
  build_graph_vertices expr skip stm = Ok G →
  ∃ m, e2i G = Some m
       ∧ number_of_nodes G = length m
       ∧ dict_keys (nodes G) = seq 0 (length m)
       ∧ (∀ i, out_edges G !! i = (if decide (i < length m) then Some [] else None)
               ∧ in_edges G !! i = (if decide (i < length m) then Some [] else None))
       ∧ ∀ i v, (∃ kw, dict_get i (nodes G) = Some kw ∧ get_expression kw = Ok v)
                ↔ dict_get v m = Some i.
Proof.
  destruct (build_graph_vertices_spec expr skip stm) as (m & Hm & Hinv & ->).
  destruct (skipped skip expr); [done|]. intros [= <-].
  destruct Hinv as (Hdense & _). cbn [fst] in Hdense.
  assert ((enumerate (dict_keys m)).*1 = seq 0 (length m)) as Hkeys.
  { rewrite enumerate_keys. unfold dict_keys. by rewrite length_fmap. }
  exists m. split_and!; [done| | | |].
  - unfold number_of_nodes, vertices_of, enumerate, dict_keys. cbn [nodes].
    by rewrite length_fmap, length_imap, length_fmap.
  - unfold vertices_of. cbn [nodes]. unfold dict_keys at 1.
    rewrite <-list_fmap_compose. exact Hkeys.
  - intros i. unfold vertices_of. cbn [out_edges in_edges].
    rewrite foldl_insert_nil_lookup, Hkeys, lookup_empty.
    split; repeat case_decide; try done.
    all: match goal with H : _ |- _ => rewrite elem_of_seq in H end; lia.
  - intros i v. unfold vertices_of. cbn [nodes].
    rewrite (dict_get_indexed (λ iv, vertex_kwargs (length m) iv.1 iv.2)).
    rewrite dense_keys_lookup by done. split.
    + intros (kw & Hkw & Hv). destruct (dict_keys m !! i) as [e|]; [|done].
      injection Hkw as <-. cbn [fst snd] in Hv.
      rewrite get_expression_vertex in Hv. congruence.
    + intros ->. eexists. split; [done|]. apply get_expression_vertex.
Qed.

Lemma vertices_and_index_are_inverse_witness :
  ∃ m, e2i (vertices_of [(coefficient 0, 0); (coefficient 1, 1); (a_times_b, 2)]) = Some m
       ∧ number_of_nodes
           (vertices_of [(coefficient 0, 0); (coefficient 1, 1); (a_times_b, 2)])
         = length m
       ∧ dict_keys
           (nodes (vertices_of [(coefficient 0, 0); (coefficient 1, 1); (a_times_b, 2)]))
         = seq 0 (length m)
       ∧ (∀ i,
             out_edges
               (vertices_of [(coefficient 0, 0); (coefficient 1, 1); (a_times_b, 2)]) !! i
             = (if decide (i < length m) then Some [] else None)
             ∧ in_edges
                 (vertices_of [(coefficient 0, 0); (coefficient 1, 1); (a_times_b, 2)]) !! i
               = (if decide (i < length m) then Some [] else None))
       ∧ ∀ i v,
           (∃ kw,
               dict_get i
                 (nodes
                    (vertices_of [(coefficient 0, 0); (coefficient 1, 1); (a_times_b, 2)]))
               = Some kw
               ∧ get_expression kw = Ok v)
           ↔ dict_get v m = Some i.
Proof.
  apply (vertices_and_index_are_inverse a_times_b ["MultiIndex"] false).
  vm_compute. reflexivity.
Defined.

(** ** What the container's methods keep *)

Lemma dict_set_keys {K V} `{EqDecision K} (k x : K) (v : V) (d : list (K * V)) :
  x ∈ dict_keys (dict_set k v d) ↔ x = k ∨ x ∈ dict_keys d.
Proof.
  rewrite <-!dict_get_is_Some. destruct (decide (k = x)) as [->|Hne].
  - rewrite dict_get_set_eq. split; [by left|by eexists].
  - rewrite dict_get_set_ne by done. split; [by right|]. by intros [->|?].
Qed.

Lemma dict_set_keys_NoDup {K V} `{EqDecision K} (k : K) (v : V) (d : list (K * V)) :
  NoDup (dict_keys d) → NoDup (dict_keys (dict_set k v d)).
Proof.
  induction d as [|[k' v'] d IH]; simpl.
  - intros _. apply NoDup_singleton.
  - intros [Hk' Hnd]%NoDup_cons. destruct (decide (k = k')) as [->|Hne]; simpl.
    + by apply NoDup_cons.
    + apply NoDup_cons. split; [|by apply IH].
      change (k' ∉ dict_keys (dict_set k v d)). rewrite dict_set_keys.
      by intros [->|?].
Qed.

Lemma add_edge_nodes n1 n2 G : nodes (add_edge n1 n2 G).1 = nodes G.
Proof.
  unfold add_edge. destruct (negb _ || negb _); [done|].
  destruct (out_edges G !! n1); [|done]. cbn [in_edges].
  by destruct (in_edges G !! n2).
Qed.

(** The class keeps its three dictionaries in step: a fresh graph has,
    and [add_node] and [add_edge] keep, one entry per node key and both
    edge lists for every node; [add_edge] never adds, removes or changes
    a node, whether it raises or not. *)
Theorem graph_methods_keep_dictionaries_in_step :
  (graph_wf new_graph ∧ NoDup (dict_keys (nodes new_graph)))
  ∧ (∀ k kw G,
        (graph_wf G → graph_wf (add_node k kw G).1)
        ∧ (NoDup (dict_keys (nodes G)) → NoDup (dict_keys (nodes (add_node k kw G).1))))
  ∧ ∀ n1 n2 G,
      nodes (add_edge n1 n2 G).1 = nodes G
      ∧ e2i (add_edge n1 n2 G).1 = e2i G
      ∧ (graph_wf G → graph_wf (add_edge n1 n2 G).1).
Proof.
  split_and!.
  - apply graph_wf_new.
  - apply NoDup_nil_2.
  - intros k kw G. split; [apply graph_wf_add_node|]. cbn [add_node fst nodes].
    apply dict_set_keys_NoDup.
  - intros n1 n2 G. split_and!; [apply add_edge_nodes| |apply graph_wf_add_edge].
    unfold add_edge. destruct (negb _ || negb _); [done|].
    destruct (out_edges G !! n1); [|done]. cbn [in_edges].
    by destruct (in_edges G !! n2).
Qed.

(** ** In-edges of the final graph *)

Lemma for_each_invariant {A} (body : A → method unit) (P : ExpressionGraph → Prop)
  (l : list A) G G' :
  (∀ x G1 G2, P G1 → body x G1 = (G2, Ok ()) → P G2) →
  P G → for_each body l G = (G', Ok ()) → P G'.
Proof.
  intros Hbody. revert G. induction l as [|x l IH]; intros G HP; simpl.
  - by intros [= <-].
  - destruct (body x G) as [G1 [[]|e]] eqn:Hx; [|done]. apply IH. by eapply Hbody.
Qed.

Lemma edges_at_insert edges k l k' :
  edges_at (<[k:=l]> edges) k' = if decide (k = k') then l else edges_at edges k'.
Proof.
  unfold edges_at. case_decide as Hk; [subst; by rewrite lookup_insert_eq|].
  by rewrite lookup_insert_ne.
Qed.

Lemma add_edge_mirrored n1 n2 G G' :
  mirrored G → add_edge n1 n2 G = (G', Ok ()) → mirrored G'.
Proof.
  intros Hmir (out1 & in2 & _ & _ & Hout & Hin & ->)%add_edge_Ok i j.
  cbn [out_edges in_edges]. rewrite !edges_at_insert. specialize (Hmir i j).
  assert (edges_at (out_edges G) n1 = out1) as Hout' by (unfold edges_at; by rewrite Hout).
  assert (edges_at (in_edges G) n2 = in2) as Hin' by (unfold edges_at; by rewrite Hin).
  destruct (decide (n1 = i)) as [<-|Hi], (decide (n2 = j)) as [<-|Hj].
  - rewrite !count_occ_app, <-Hout', <-Hin', Hmir. simpl.
    destruct (Nat.eq_dec n2 n2), (Nat.eq_dec n1 n1); done.
  - rewrite count_occ_app, <-Hout', Hmir. simpl.
    destruct (Nat.eq_dec n2 j); [done|]. lia.
  - rewrite count_occ_app, <-Hin', Hmir. simpl.
    destruct (Nat.eq_dec n1 i); [done|]. lia.
  - done.
Qed.

Lemma vertices_of_mirrored m : mirrored (vertices_of m).
Proof.
  intros i j. unfold vertices_of, edges_at. cbn [out_edges in_edges].
  rewrite !foldl_insert_nil_lookup, !lookup_empty. by repeat case_decide.
Qed.

Lemma scalar_graph_loop cs imt rc gi expression G :
  build_scalar_graph cs imt rc gi expression = Ok G →
  ∃ scalar_expression m V_deps,
    _count_nodes_with_unique_post_traversal scalar_expression [] true = Some m
    ∧ mapM (node_deps (vertices_of m)) (nodes (vertices_of m)) = Ok V_deps
    ∧ for_each add_edges_from (enumerate V_deps) (vertices_of m) = (G, Ok ()).
Proof.
  unfold build_scalar_graph.
  destruct (build_graph_vertices expression ["MultiIndex"] false) as [G1|];
    raise_steps; [|done].
  destruct (rebuild_with_scalar_subexpressions cs imt rc gi G1) as [[se|]|];
    raise_steps; [|done|done].
  destruct (build_graph_vertices_spec se [] true) as (m & Hm & _ & ->).
  destruct (skipped [] se); raise_steps; [done|].
  destruct (mapM (node_deps (vertices_of m)) (nodes (vertices_of m)))
    as [V_deps|] eqn:Hdeps; raise_steps; [|done].
  destruct (for_each _ (enumerate V_deps) (vertices_of m)) as [G' [[]|]] eqn:Hedges;
    raise_steps; [|done].
  intros [= <-]. by exists se, m, V_deps.
Qed.

(** In the graph [build_scalar_graph] returns the in-edge lists are the
    out-edge lists read backwards, parallel edges included: [j] occurs in
    the out-edges of [i] exactly as often as [i] occurs in the in-edges
    of [j]. *)
Theorem scalar_graph_in_edges_mirror_out_edges cs imt rc gi expression G :
  build_scalar_graph cs imt rc gi expression = Ok G →
  ∀ i j, count_occ Nat.eq_dec (edges_at (out_edges G) i) j
         = count_occ Nat.eq_dec (edges_at (in_edges G) j) i.
Proof.
  intros (se & m & V_deps & _ & _ & Hloop)%scalar_graph_loop.
  change (mirrored G).
  eapply (for_each_invariant add_edges_from mirrored); [|apply vertices_of_mirrored|done].
  intros [i js] G1 G2 Hmir Hedges. unfold add_edges_from in Hedges.
  eapply (for_each_invariant (λ j, add_edge (i, js).1 j) mirrored); [|done|done].
  intros j G3 G4. apply add_edge_mirrored.
Qed.

Lemma scalar_graph_in_edges_mirror_out_edges_witness :
  (∀ i j, count_occ Nat.eq_dec (edges_at (out_edges ab_plus_ab_graph) i) j
          = count_occ Nat.eq_dec (edges_at (in_edges ab_plus_ab_graph) j) i)
  ∧ in_edges ab_plus_ab_graph !! 2 = Some [3; 3].
Proof.
  split.
  - apply (scalar_graph_in_edges_mirror_out_edges
             sample_compute_symbols sample_is_modified_terminal sample_reconstruct
             sample_getitem ab_plus_ab ab_plus_ab_graph).
    vm_compute. reflexivity.
  - vm_compute. reflexivity.
Defined.


(** ** The final graph is built whenever nothing is left unindexed *)

Lemma mapM_succeeds {A B} (f : A → result B) (l : list A) :
  (∀ x, x ∈ l → ∃ y, f x = Ok y) → ∃ k, mapM f l = Ok k.
Proof.
  induction l as [|x l IH]; intros Hl; [by exists []|].
  rewrite mapM_result_cons.
  destruct (Hl x) as [y ->]; [left|]. destruct IH as [k ->]; [|by eexists].
  intros z Hz. apply Hl. by right.
Qed.

Lemma mapM_first_error {A B} (f : A → result B) (l : list A) (e : exception) :
  (∀ x, x ∈ l → f x = Raise e ∨ ∃ y, f x = Ok y) →
  (∃ x, x ∈ l ∧ f x = Raise e) →
  mapM f l = Raise e.
Proof.
  induction l as [|x l IH]; intros Hall (z & Hz & Hfz); [by apply elem_of_nil in Hz|].
  rewrite mapM_result_cons. destruct (Hall x) as [->|[y Hy]]; [left|done|].
  rewrite Hy. cbn [rbind]. rewrite IH; [done| |].
  - intros w Hw. apply Hall. by right.
  - apply elem_of_cons in Hz as [->|Hz]; [congruence|by exists z].
Qed.

Lemma add_edges_from_succeeds i js G :
  graph_wf G →
  dict_contains i (nodes G) = true →
  (∀ j, j ∈ js → dict_contains j (nodes G) = true) →
  ∃ G', add_edges_from (i, js) G = (G', Ok ()) ∧ nodes G' = nodes G ∧ graph_wf G'.
Proof.
  unfold add_edges_from. cbn [fst snd]. revert G.
  induction js as [|j js IH]; intros G Hwf Hi Hjs; simpl; [by exists G|].
  assert (dict_contains j (nodes G) = true) as Hj by (apply Hjs; left).
  pose proof (graph_wf_add_edge i j G Hwf) as Hwf'.
  pose proof (add_edge_nodes i j G) as Hnodes.
  destruct (add_edge i j G) as [G1 r] eqn:Hedge. cbn [fst] in *.
  assert (r = Ok ()) as ->.
  { unfold add_edge in Hedge. rewrite Hi, Hj in Hedge. cbn [negb orb] in Hedge.
    destruct (Hwf i Hi) as [[out1 Hout] _], (Hwf j Hj) as [_ [in2 Hin]].
    rewrite Hout in Hedge. cbn [in_edges] in Hedge. rewrite Hin in Hedge.
    by injection Hedge as _ <-. }
  destruct (IH G1) as (G' & -> & Hn & Hwf''); [done|by rewrite Hnodes| |].
  - intros k Hk. rewrite Hnodes. apply Hjs. by right.
  - exists G'. split_and!; [done|congruence|done].
Qed.

Lemma for_each_add_edges_succeeds (l : list (nat * list nat)) G :
  graph_wf G →
  (∀ ie, ie ∈ l → dict_contains ie.1 (nodes G) = true
                   ∧ ∀ j, j ∈ ie.2 → dict_contains j (nodes G) = true) →
  ∃ G', for_each add_edges_from l G = (G', Ok ()).
Proof.
  revert G. induction l as [|[i js] l IH]; intros G Hwf Hl; simpl; [by exists G|].
  destruct (Hl (i, js)) as [Hi Hjs]; [left|]. cbn [fst snd] in *.
  destruct (add_edges_from_succeeds i js G Hwf Hi Hjs) as (G1 & -> & Hnodes & Hwf1).
  apply IH; [done|]. intros ie Hie. rewrite Hnodes. apply Hl. by right.
Qed.

Lemma vertices_of_contains m i :
  dict_contains i (nodes (vertices_of m)) = true ↔ i < length m.
Proof.
  rewrite dict_contains_true, dict_get_is_Some.
  unfold vertices_of, dict_keys. cbn [nodes]. rewrite <-list_fmap_compose.
  change (i ∈ (enumerate m.*1).*1 ↔ i < length m).
  rewrite enumerate_keys, length_fmap, elem_of_seq. lia.
Qed.

Lemma vertices_of_wf m : graph_wf (vertices_of m).
Proof.
  intros k Hk%vertices_of_contains. unfold vertices_of. cbn [out_edges in_edges].
  rewrite !foldl_insert_nil_lookup, !decide_True; [split; by eexists|..];
    rewrite enumerate_keys; unfold dict_keys; rewrite length_fmap, elem_of_seq; lia.
Qed.

(** When the first pass and the rebuild succeed and no node of the
    rebuilt scalar expression that the enumerator reaches is a [Label],
    every operand lookup and every [add_edge] of the final pass succeeds:
    [build_scalar_graph] returns a graph. *)
Theorem scalar_graph_built_without_labels cs imt rc gi expression G1 scalar_expression :
  build_graph_vertices expression ["MultiIndex"] false = Ok G1 →
  rebuild_with_scalar_subexpressions cs imt rc gi G1 = Ok (Some scalar_expression) →
  (∀ x, reach true x scalar_expression → isinstance x ["Label"] = false) →
  ∃ G, build_scalar_graph cs imt rc gi expression = Ok G.
Proof.
  intros HG1 Hse Hlabel. unfold build_scalar_graph. rewrite HG1. raise_steps.
  rewrite Hse. raise_steps.
  destruct (build_graph_vertices_spec scalar_expression [] true) as (m & Hm & Hinv & ->).
  destruct (count_nodes_sound scalar_expression [] true) as (m' & Hm' & _ & [Hkeys _]).
  assert (m' = m) as -> by congruence. cbn [fst] in Hkeys.
  unfold skipped at 1. rewrite (Hlabel _ (reach_refl _ _)). raise_steps.
  destruct Hinv as (Hdense & Hmem & _). cbn [fst] in *.
  assert (∀ i e, dict_keys m !! i = Some e →
            ∃ d, node_deps (vertices_of m) (i, vertex_kwargs (length m) i e) = Ok d
                 ∧ ∀ j, j ∈ d → j < length m) as Hdeps.
  { intros i e He. unfold node_deps. cbn [snd]. rewrite get_expression_vertex. raise_steps.
    destruct (has_no_dependencies e) eqn:Hnd.
    { exists []. split; [done|]. by intros j ?%elem_of_nil. }
    apply dense_keys_lookup in He; [|done].
    destruct (Hmem e (mk_is_Some _ _ He)) as [_ Hcomplete].
    assert (traversed_operands true e = ufl_operands e) as Htrav.
    { unfold traversed_operands, is_opaque_unit. unfold has_no_dependencies in Hnd.
      cbn [andb]. by rewrite Hnd. }
    destruct (mapM_succeeds
                (λ o, m0 ← get_e2i (vertices_of m); or_raise (KeyError "e2i") (dict_get o m0))
                (ufl_operands e)) as [d Hd].
    - intros o Ho. unfold get_e2i, vertices_of. cbn [e2i]. raise_steps.
      rewrite <-Htrav in Ho.
      destruct (complete_operand _ _ _ _ _ Hcomplete Ho) as [Hskip|[j Hj]].
      + unfold skipped in Hskip. rewrite Hlabel in Hskip; [done|].
        eapply reach_operand; [|done]. apply Hkeys. by eexists.
      + rewrite Hj. by eexists.
    - exists d. split; [done|]. intros j (k & Hk)%list_elem_of_lookup.
      apply mapM_Ok in Hd. destruct (Forall2_lookup_r _ _ _ _ _ Hd Hk) as (o & _ & Ho).
      unfold get_e2i, vertices_of in Ho.
      cbn [e2i mbind result_bind rbind or_raise] in Ho.
      destruct (dict_get o m) as [j'|] eqn:Hj'; [|done]. injection Ho as <-.
      by eapply dense_bound. }
  destruct (mapM_succeeds (node_deps (vertices_of m)) (nodes (vertices_of m)))
    as [V_deps HV].
  { intros [i kw] (e & He & ->)%vertices_of_elem.
    destruct (Hdeps i e He) as (d & Hd & _). by exists d. }
  rewrite HV. raise_steps.
  destruct (for_each_add_edges_succeeds (enumerate V_deps) (vertices_of m))
    as [G Hloop]; [apply vertices_of_wf| |rewrite Hloop; by exists G].
  intros [i js] (k & Hk)%list_elem_of_lookup. rewrite enumerate_lookup in Hk.
  destruct (V_deps !! k) as [d0|] eqn:Hjs; [|done]. injection Hk as <- <-.
  cbn [fst snd]. apply mapM_Ok in HV.
  destruct (Forall2_lookup_r _ _ _ _ _ HV Hjs) as ([i' kw] & Hnode & Hd).
  rewrite vertices_of_lookup in Hnode.
  destruct (dict_keys m !! k) as [e|] eqn:He; [|done]. injection Hnode as <- <-.
  destruct (Hdeps k e He) as (d & Hd' & Hbound).
  assert (d = d0) as -> by congruence. split.
  - apply vertices_of_contains. apply lookup_lt_Some in He.
    unfold dict_keys in He. by rewrite length_fmap in He.
  - intros j Hj. apply vertices_of_contains. by apply Hbound.
Qed.

Lemma scalar_graph_built_without_labels_witness :
  ∃ G, build_scalar_graph sample_compute_symbols sample_is_modified_terminal
         sample_reconstruct sample_getitem ab_plus_ab = Ok G.
Proof.
  apply (scalar_graph_built_without_labels
           sample_compute_symbols sample_is_modified_terminal sample_reconstruct
           sample_getitem ab_plus_ab
           (vertices_of [(coefficient 0, 0); (coefficient 1, 1); (a_times_b, 2);
                         (ab_plus_ab, 3)])
           ab_plus_ab).
  - vm_compute. reflexivity.
  - vm_compute. reflexivity.
  - intros x Hx. apply reach_subterms in Hx. apply list_elem_of_In in Hx.
    simpl in Hx. by repeat destruct Hx as [<-|Hx].
Defined.

(** ** The target has no dependents *)

Lemma add_edges_loop_keeps (P : ExpressionGraph → Prop) (l : list (nat * list nat)) G G' :
  (∀ i j G1 G2, P G1 → add_edge i j G1 = (G2, Ok ()) → P G2) →
  P G → for_each add_edges_from l G = (G', Ok ()) → P G'.
Proof.
  intros Hedge. apply (for_each_invariant add_edges_from P).
  intros [i js] G1 G2 HP Hfrom. unfold add_edges_from in Hfrom.
  eapply (for_each_invariant (λ j, add_edge (i, js).1 j) P); [|done|done].
  intros j G3 G4. apply Hedge.
Qed.

Lemma mapM_Ok_length {A B} (f : A → result B) (l : list A) (k : list B) :
  mapM f l = Ok k → length k = length l.
Proof. intros Hk%mapM_Ok. symmetry. by eapply Forall2_length. Qed.

Lemma scalar_graph_structure cs imt rc gi expression G :
  build_scalar_graph cs imt rc gi expression = Ok G →
  ∃ scalar_expression m V_deps,
    _count_nodes_with_unique_post_traversal scalar_expression [] true = Some m
    ∧ trav_inv [] true scalar_expression (m, [])
    ∧ skipped [] scalar_expression = false
    ∧ mapM (node_deps (vertices_of m)) (nodes (vertices_of m)) = Ok V_deps
    ∧ for_each add_edges_from (enumerate V_deps) (vertices_of m) = (G, Ok ()).
Proof.
  unfold build_scalar_graph.
  destruct (build_graph_vertices expression ["MultiIndex"] false) as [G1|];
    raise_steps; [|done].
  destruct (rebuild_with_scalar_subexpressions cs imt rc gi G1) as [[se|]|];
    raise_steps; [|done|done].
  destruct (build_graph_vertices_spec se [] true) as (m & Hm & Hinv & ->).
  destruct (skipped [] se) eqn:Hskip; raise_steps; [done|].
  destruct (mapM (node_deps (vertices_of m)) (nodes (vertices_of m)))
    as [V_deps|] eqn:Hdeps; raise_steps; [|done].
  destruct (for_each _ (enumerate V_deps) (vertices_of m)) as [G' [[]|]] eqn:Hedges;
    raise_steps; [|done].
  intros [= <-]. by exists se, m, V_deps.
Qed.

(** In the graph [build_scalar_graph] returns, the last node (the one
    flagged as target) is an operand of no node: its in-edge list is
    empty. *)
Theorem scalar_graph_target_has_no_dependents cs imt rc gi expression G :
  build_scalar_graph cs imt rc gi expression = Ok G →
  0 < number_of_nodes G ∧ in_edges G !! (number_of_nodes G - 1) = Some [].
Proof.
  intros (se & m & V_deps & Hm & Hinv & Hskip & HV & Hloop)%scalar_graph_structure.
  assert (mirrored G ∧ graph_wf G ∧ nodes G = nodes (vertices_of m)) as (Hmir & Hwf & Hnodes).
  { eapply (add_edges_loop_keeps
              (λ G0, mirrored G0 ∧ graph_wf G0 ∧ nodes G0 = nodes (vertices_of m)));
      [|split_and!; [apply vertices_of_mirrored|apply vertices_of_wf|done]|done].
    intros i j G1 G2 (Hmir & Hwf & Hn) Hedge. split_and!.
    - by eapply add_edge_mirrored.
    - pose proof (graph_wf_add_edge i j G1 Hwf) as Hwf'. by rewrite Hedge in Hwf'.
    - pose proof (add_edge_nodes i j G1) as Hn1. rewrite Hedge in Hn1.
      cbn [fst] in Hn1. congruence. }
  apply for_each_add_edges_Ok in Hloop as (_ & _ & Hout);
    [|rewrite enumerate_keys; apply NoDup_seq].
  destruct Hinv as (Hdense & _ & Hord & _ & Hlast). cbn [fst snd] in *.
  pose proof (dense_bound _ _ _ Hdense (Hlast Hskip)) as Hpos.
  assert (number_of_nodes G = length m) as ->.
  { unfold number_of_nodes. rewrite Hnodes.
    unfold vertices_of, enumerate, dict_keys. cbn [nodes].
    by rewrite length_fmap, length_imap, length_fmap. }
  split; [lia|].
  assert (dict_contains (length m - 1) (nodes G) = true) as Hreg.
  { rewrite Hnodes. apply vertices_of_contains. lia. }
  destruct (Hwf _ Hreg) as [_ [l Hl]]. rewrite Hl. f_equal.
  destruct l as [|i l]; [done|]. exfalso.
  specialize (Hmir i (length m - 1)). unfold edges_at at 2 in Hmir. rewrite Hl in Hmir.
  assert (length m - 1 ∈ edges_at (out_edges G) i) as Hin.
  { apply list_elem_of_In, (count_occ_In Nat.eq_dec). rewrite Hmir. simpl.
    destruct (Nat.eq_dec i i); [lia|done]. }
  unfold edges_at in Hin. rewrite Hout, dict_get_enumerate in Hin.
  destruct (dict_keys m !! i) as [e|] eqn:He.
  - assert (nodes (vertices_of m) !! i = Some (i, vertex_kwargs (length m) i e)) as Hnode
      by (by rewrite vertices_of_lookup, He).
    apply mapM_Ok in HV.
    destruct (Forall2_lookup_l _ _ _ _ _ HV Hnode) as (d & Hd & Hdeps).
    rewrite Hd in Hin. apply lookup_lt_Some in He as Hlt.
    unfold dict_keys in Hlt. rewrite length_fmap in Hlt.
    rewrite vertices_of_out_edges in Hin by done. cbn [fmap option_fmap option_map default app] in Hin.
    apply node_deps_vertex in Hdeps.
    destruct (has_no_dependencies e) eqn:Hnd; [subst; by apply elem_of_nil in Hin|].
    apply list_elem_of_lookup in Hin as [k Hk].
    destruct (Forall2_lookup_r _ _ _ _ _ Hdeps Hk) as (o & Ho & Hget).
    assert (length m - 1 < i); [|lia].
    apply (Hord e i o (length m - 1)); [by apply dense_keys_lookup| |done].
    unfold traversed_operands, is_opaque_unit. unfold has_no_dependencies in Hnd.
    cbn [andb]. rewrite Hnd. by eapply list_elem_of_lookup_2.
  - apply lookup_ge_None in He. unfold dict_keys in He. rewrite length_fmap in He.
    apply mapM_Ok_length in HV.
    assert (length (nodes (vertices_of m)) = length m) as Hlen.
    { unfold vertices_of, enumerate, dict_keys. cbn [nodes].
      by rewrite length_fmap, length_imap, length_fmap. }
    rewrite (lookup_ge_None_2 V_deps i) in Hin by lia.
    unfold vertices_of in Hin. cbn [out_edges] in Hin.
    rewrite foldl_insert_nil_lookup, lookup_empty, decide_False in Hin.
    + by apply elem_of_nil in Hin.
    + rewrite enumerate_keys, elem_of_seq. unfold dict_keys. rewrite length_fmap. lia.
Qed.

Lemma scalar_graph_target_has_no_dependents_witness :
  0 < number_of_nodes ab_plus_ab_graph
  ∧ in_edges ab_plus_ab_graph !! (number_of_nodes ab_plus_ab_graph - 1) = Some [].
Proof.
  apply (scalar_graph_target_has_no_dependents
           sample_compute_symbols sample_is_modified_terminal sample_reconstruct
           sample_getitem ab_plus_ab ab_plus_ab_graph).
  vm_compute. reflexivity.
Defined.

(** ** What a successful rebuild leaves in the symbol table *)

Lemma all_filled_true W vs :
  all_filled W vs = Ok true → ∀ s, s ∈ vs → ∃ x, W !! s = Some (Some x).
Proof.
  induction vs as [|s0 vs IH]; simpl; [by intros _ s ?%elem_of_nil|].
  destruct (W !! s0) as [[x|]|] eqn:Hs0; [|done..].
  intros Hvs s [->|Hs]%elem_of_cons; [by exists x|by apply IH].
Qed.

Lemma store_symbol_fills st sw st' :
  store_symbol st sw = Ok st' → ∃ x, st'.1 !! sw.1 = Some (Some x).
Proof.
  intros [[Hs ->]|(x & Hx & _ & ->)]%store_symbol_Ok; [|by exists x].
  exists sw.2. cbn [fst]. apply list_lookup_insert_eq. by eapply lookup_lt_Some.
Qed.

Lemma store_symbol_length st sw st' :
  store_symbol st sw = Ok st' → length st'.1 = length st.1.
Proof.
  intros [[Hs ->]|(x & Hx & _ & ->)]%store_symbol_Ok; [|done].
  cbn [fst]. apply length_insert.
Qed.

Lemma store_symbols_fills st l st' :
  store_symbols st l = Ok st' →
  length st'.1 = length st.1 ∧ ∀ sw, sw ∈ l → ∃ x, st'.1 !! sw.1 = Some (Some x).
Proof.
  revert st. induction l as [|sw0 l IH]; intros st; simpl.
  - intros [= <-]. split; [done|]. by intros sw ?%elem_of_nil.
  - destruct (store_symbol st sw0) as [st1|] eqn:Hsw; raise_steps; [|done].
    intros Hl. destruct (IH _ Hl) as [Hlen Hfill]. split.
    + rewrite Hlen. by eapply store_symbol_length.
    + intros sw [->|Hsw']%elem_of_cons; [|by apply Hfill].
      destruct (store_symbol_fills _ _ _ Hsw) as [x Hx]. exists x.
      by apply (store_symbols_keeps _ _ _ Hl).
Qed.

Section filled_slots.
Variable is_modified_terminal : Expr → bool.
Variable reconstruct : Expr → list (list (option Expr)) → result (list Expr).
Variable getitem : Expr → list nat → Expr.

Lemma node_scalars_length G V W expr vs ws :
  node_scalars is_modified_terminal reconstruct getitem G V W expr vs = Ok ws →
  (is_modified_terminal expr = true → ufl_shape expr = []) →
  length ws = length vs.
Proof.
  unfold node_scalars. destruct (is_modified_terminal expr).
  - intros Hws Hshape. rewrite (Hshape eq_refl) in Hws.
    case_bool_decide as Hlen; [done|]. injection Hws as <-. simpl.
    destruct (decide (length vs = 1)); [done|contradiction].
  - intros Hws _.
    destruct (mapM (operand_symbols G V) (ufl_operands expr)) as [sops|];
      cbn [mbind result_bind rbind] in Hws; [|done].
    destruct (mapM (mapM (fetch W)) sops) as [wops|];
      cbn [mbind result_bind rbind] in Hws; [|done].
    destruct (reconstruct expr wops) as [ws'|];
      cbn [mbind result_bind rbind] in Hws; [|done].
    case_bool_decide as Hlen; [done|]. injection Hws as <-.
    destruct (decide (length vs = length ws')); [done|contradiction].
Qed.

Lemma rebuild_node_fills G V W i kw W' expr vs :
  rebuild_node is_modified_terminal reconstruct getitem G V W (i, kw) = Ok W' →
  get_expression kw = Ok expr → V !! i = Some vs →
  (is_modified_terminal expr = true → ufl_shape expr = []) →
  ∀ s, s ∈ vs → ∃ x, W' !! s = Some (Some x).
Proof.
  unfold rebuild_node. cbn [fst snd]. intros HW' Hexpr Hvs Hshape.
  rewrite Hexpr in HW'. cbn [mbind result_bind rbind] in HW'.
  rewrite Hvs in HW'. cbn [mbind result_bind rbind or_raise] in HW'.
  destruct (all_filled W vs) as [[|]|] eqn:Hfilled;
    cbn [mbind result_bind rbind] in HW'; [| |done].
  - injection HW' as <-. by apply all_filled_true.
  - destruct (node_scalars _ _ _ G V W expr vs) as [ws|] eqn:Hws;
      cbn [mbind result_bind rbind] in HW'; [|done].
    destruct (store_symbols (W, ∅) (zip vs ws)) as [st|] eqn:Hst;
      cbn [mbind result_bind rbind] in HW'; [|done].
    injection HW' as <-. apply node_scalars_length in Hws; [|done].
    apply store_symbols_fills in Hst as [_ Hfill].
    intros s (k & Hk)%list_elem_of_lookup.
    destruct (lookup_lt_is_Some_2 ws k) as [w Hw];
      [rewrite Hws; by eapply lookup_lt_Some|].
    apply (Hfill (s, w)). apply list_elem_of_lookup. exists k.
    by apply lookup_zip_Some.
Qed.

Lemma rebuild_node_length G V W iv W' :
  rebuild_node is_modified_terminal reconstruct getitem G V W iv = Ok W' →
  length W' = length W.
Proof.
  unfold rebuild_node. intros HW'.
  destruct (get_expression iv.2) as [expr|]; cbn [mbind result_bind rbind] in HW'; [|done].
  destruct (V !! iv.1) as [vs|]; cbn [mbind result_bind rbind or_raise] in HW'; [|done].
  destruct (all_filled W vs) as [[|]|]; cbn [mbind result_bind rbind] in HW'; [| |done].
  - by injection HW' as <-.
  - destruct (node_scalars _ _ _ G V W expr vs) as [ws|];
      cbn [mbind result_bind rbind] in HW'; [|done].
    destruct (store_symbols (W, ∅) (zip vs ws)) as [st|] eqn:Hst;
      cbn [mbind result_bind rbind] in HW'; [|done].
    injection HW' as <-. by apply store_symbols_fills in Hst as [Hlen _].
Qed.

Lemma rebuild_nodes_fills G V W l W' :
  rebuild_nodes is_modified_terminal reconstruct getitem G V W l = Ok W' →
  length W' = length W
  ∧ ∀ i kw expr vs s,
      (i, kw) ∈ l → get_expression kw = Ok expr → V !! i = Some vs →
      (is_modified_terminal expr = true → ufl_shape expr = []) →
      s ∈ vs → ∃ x, W' !! s = Some (Some x).
Proof.
  revert W. induction l as [|iv l IH]; intros W; simpl.
  - intros [= <-]. split; [done|]. by intros i kw expr vs s ?%elem_of_nil.
  - destruct (rebuild_node _ _ _ G V W iv) as [W1|] eqn:Hiv; raise_steps; [|done].
    intros Hl. destruct (IH _ Hl) as [Hlen Hfill]. split.
    + rewrite Hlen. by eapply rebuild_node_length.
    + intros i kw expr vs s [<-|Hin]%elem_of_cons Hexpr Hvs Hshape Hs; [|by eauto].
      destruct (rebuild_node_fills _ _ _ _ _ _ _ _ Hiv Hexpr Hvs Hshape s Hs) as [x Hx].
      exists x. by eapply rebuild_nodes_keeps.
Qed.
End filled_slots.

(** After a rebuild loop that did not raise, the symbol table has the
    size it started with, and every symbol of every visited node that is
    an operator or a scalar modified terminal has a filled slot. *)
Theorem rebuilt_symbols_are_filled imt rc gi G V W l W' :
  rebuild_nodes imt rc gi G V W l = Ok W' →
  length W' = length W
  ∧ ∀ i kw expr vs s,
      (i, kw) ∈ l → get_expression kw = Ok expr → V !! i = Some vs →
      (imt expr = true → ufl_shape expr = []) →
      s ∈ vs → ∃ x, W' !! s = Some (Some x).
Proof. apply rebuild_nodes_fills. Qed.

Lemma rebuilt_symbols_are_filled_witness :
  length [Some (coefficient 0); Some (coefficient 1); Some a_times_b]
  = length (replicate 3 (None : option Expr))
  ∧ ∀ i kw expr vs s,
      (i, kw) ∈ nodes (vertices_of [(coefficient 0, 0); (coefficient 1, 1); (a_times_b, 2)]) →
      get_expression kw = Ok expr → [[0]; [1]; [2]] !! i = Some vs →
      (sample_is_modified_terminal expr = true → ufl_shape expr = []) →
      s ∈ vs →
      ∃ x, [Some (coefficient 0); Some (coefficient 1); Some a_times_b] !! s
           = Some (Some x).
Proof.
  apply (rebuilt_symbols_are_filled
           sample_is_modified_terminal sample_reconstruct sample_getitem
           (vertices_of [(coefficient 0, 0); (coefficient 1, 1); (a_times_b, 2)])
           [[0]; [1]; [2]] (replicate 3 None)
           (nodes (vertices_of [(coefficient 0, 0); (coefficient 1, 1); (a_times_b, 2)]))).
  vm_compute. reflexivity.
Defined.

(** When the value numberer gives one symbol sequence per node and the
    root is an operator or a scalar modified terminal, a rebuild that
    returns does not return [None]: the slot of the root's first symbol
    holds an expression. *)
Theorem rebuild_returns_an_expression cs imt rc gi expression skip stm G V total r :
  build_graph_vertices expression skip stm = Ok G →
  cs G = Ok (V, total) →
  length V = number_of_nodes G →
  (imt expression = true → ufl_shape expression = []) →
  rebuild_with_scalar_subexpressions cs imt rc gi G = Ok r →
  ∃ e, r = Some e.
Proof.
  intros HG Hcs Hlen Hshape.
  destruct (build_graph_vertices_spec expression skip stm) as (m & _ & Hinv & HG').
  rewrite HG in HG'. destruct (skipped skip expression) eqn:Hskip; [done|].
  injection HG' as ->.
  destruct Hinv as (Hdense & _ & _ & _ & Hlast). cbn [fst snd] in *.
  specialize (Hlast Hskip). pose proof (dense_bound _ _ _ Hdense Hlast) as Hpos.
  apply dense_keys_lookup in Hlast; [|done].
  assert (number_of_nodes (vertices_of m) = length m) as Hn.
  { unfold number_of_nodes, vertices_of, enumerate, dict_keys. cbn [nodes].
    by rewrite length_fmap, length_imap, length_fmap. }
  unfold rebuild_with_scalar_subexpressions. rewrite Hcs. raise_steps.
  destruct (rebuild_nodes _ _ _ _ V _ _) as [W|] eqn:HW; raise_steps; [|done].
  destruct (last V) as [vs|] eqn:Hvs; raise_steps; [|done].
  destruct (vs !! 0) as [s|] eqn:Hs; raise_steps; [|done].
  apply rebuild_nodes_fills in HW as [_ Hfill].
  destruct (Hfill (pred (length m)) (vertex_kwargs (length m) (pred (length m)) expression)
              expression vs s) as [x Hx].
  - apply list_elem_of_lookup. exists (pred (length m)).
    by rewrite vertices_of_lookup, Hlast.
  - apply get_expression_vertex.
  - rewrite last_lookup in Hvs. by rewrite Hlen, Hn in Hvs.
  - done.
  - by eapply list_elem_of_lookup_2.
  - unfold fetch. rewrite Hx. raise_steps. intros [= <-]. by exists x.
Qed.

Lemma rebuild_returns_an_expression_witness :
  rebuild_with_scalar_subexpressions
    sample_compute_symbols sample_is_modified_terminal sample_reconstruct sample_getitem
    (vertices_of [(coefficient 0, 0); (coefficient 1, 1); (a_times_b, 2)])
  = Ok (Some a_times_b)
  ∧ ∃ e, Some a_times_b = Some e.
Proof.
  split; [vm_compute; reflexivity|].
  apply (rebuild_returns_an_expression
           sample_compute_symbols sample_is_modified_terminal sample_reconstruct
           sample_getitem a_times_b ["MultiIndex"] false
           (vertices_of [(coefficient 0, 0); (coefficient 1, 1); (a_times_b, 2)])
           [[0]; [1]; [2]] 3 (Some a_times_b)).
  - vm_compute. reflexivity.
  - vm_compute. reflexivity.
  - vm_compute. reflexivity.
  - vm_compute. discriminate.
  - vm_compute. reflexivity.
Defined.


(** ** Symbol sequences the rebuilder does not check *)

(** For a modified terminal with a tensor shape the rebuilder does not
    compare the number of symbols with the number of components: given a
    single symbol whose slot is empty, it stores the first component
    there and drops the remaining ones without raising. *)
Theorem shaped_terminal_components_are_truncated
  imt rc gi G V W i kw expr s c cs :
  get_expression kw = Ok expr →
  imt expr = true →
  ufl_shape expr ≠ [] →
  compute_indices (ufl_shape expr) = c :: cs →
  V !! i = Some [s] →
  W !! s = Some None →
  rebuild_node imt rc gi G V W (i, kw) = Ok (<[s:=Some (gi expr c)]> W).
Proof.
  intros Hexpr Himt Hshape Hc Hvs Hs. unfold rebuild_node. cbn [fst snd].
  rewrite Hexpr. raise_steps. rewrite Hvs. raise_steps.
  cbn [all_filled]. rewrite Hs. raise_steps.
  unfold node_scalars. rewrite Himt.
  destruct (ufl_shape expr) as [|n sh] eqn:Hsh; [done|]. raise_steps.
  rewrite Hc. cbn [fmap list_fmap zip zip_with store_symbols].
  unfold store_symbol. cbn [fst snd]. rewrite Hs. by raise_steps.
Qed.

Lemma shaped_terminal_components_are_truncated_witness :
  rebuild_node sample_is_modified_terminal sample_reconstruct sample_getitem
    new_graph [[0]] [None] vector_vertex
  = Ok (<[0:=Some (sample_getitem (vector_coefficient 0) [0])]> [None]).
Proof.
  apply (shaped_terminal_components_are_truncated
           sample_is_modified_terminal sample_reconstruct sample_getitem
           new_graph [[0]] [None] 0
           [("expression", VExpr (vector_coefficient 0)); ("target", VBool true)]
           (vector_coefficient 0) 0 [0] [[1]; [2]]);
    try reflexivity.
  discriminate.
Defined.

(** ** Symbol arrays that are too short, operands that were never indexed *)

Lemma rebuild_nodes_raise_at imt rc gi G V W before iv after e :
  (∀ W1, rebuild_nodes imt rc gi G V W before = Ok W1 →
         rebuild_node imt rc gi G V W1 iv = Raise e) →
  ∃ e', rebuild_nodes imt rc gi G V W (before ++ iv :: after) = Raise e'
        ∧ ∀ W1, rebuild_nodes imt rc gi G V W before = Ok W1 → e' = e.
Proof.
  intros Hiv. rewrite rebuild_nodes_app.
  destruct (rebuild_nodes imt rc gi G V W before) as [W1|e0]; cbn [rbind rebuild_nodes].
  - raise_steps. rewrite (Hiv W1 eq_refl). raise_steps. exists e. by split.
  - exists e0. by split.
Qed.

(** If the value numberer hands back fewer symbol sequences than the
    graph has nodes, the rebuild raises: [IndexError] at the first node
    without a sequence, unless an earlier node has already failed. *)
Theorem rebuild_needs_symbols_for_every_node cs imt rc gi expression skip stm G V total :
  build_graph_vertices expression skip stm = Ok G →
  cs G = Ok (V, total) →
  length V < number_of_nodes G →
  ∃ e, rebuild_with_scalar_subexpressions cs imt rc gi G = Raise e
       ∧ ∀ W, rebuild_nodes imt rc gi G V (replicate total None)
                (take (length V) (nodes G)) = Ok W →
              e = IndexError.
Proof.
  intros HG Hcs Hlen.
  destruct (build_graph_vertices_spec expression skip stm) as (m & _ & _ & HG').
  rewrite HG in HG'. destruct (skipped skip expression); [done|]. injection HG' as ->.
  unfold number_of_nodes in Hlen.
  destruct (lookup_lt_is_Some_2 _ _ Hlen) as [[i kw] Hnode].
  pose proof Hnode as Hnode'. rewrite vertices_of_lookup in Hnode'.
  destruct (dict_keys m !! length V) as [x|]; [|done]. injection Hnode' as <- <-.
  destruct (rebuild_nodes_raise_at imt rc gi (vertices_of m) V (replicate total None)
              (take (length V) (nodes (vertices_of m)))
              (length V, vertex_kwargs (length m) (length V) x)
              (drop (S (length V)) (nodes (vertices_of m))) IndexError)
    as (e & He & Hfirst).
  - intros W1 _. unfold rebuild_node. cbn [fst snd].
    rewrite get_expression_vertex. raise_steps.
    by rewrite (lookup_ge_None_2 V (length V)) by lia.
  - exists e. split; [|done].
    unfold rebuild_with_scalar_subexpressions. rewrite Hcs. raise_steps.
    by rewrite <-(take_drop_middle _ _ _ Hnode), He.
Qed.

Lemma rebuild_needs_symbols_for_every_node_witness :
  ∃ e, rebuild_with_scalar_subexpressions
         (λ G, Ok ([[0]; [1]], 3)) sample_is_modified_terminal sample_reconstruct
         sample_getitem
         (vertices_of [(coefficient 0, 0); (coefficient 1, 1); (a_times_b, 2)])
       = Raise e
       ∧ ∀ W, rebuild_nodes sample_is_modified_terminal sample_reconstruct sample_getitem
                (vertices_of [(coefficient 0, 0); (coefficient 1, 1); (a_times_b, 2)])
                [[0]; [1]] (replicate 3 None)
                (take (length [[0]; [1]])
                   (nodes (vertices_of [(coefficient 0, 0); (coefficient 1, 1);
                                        (a_times_b, 2)])))
              = Ok W →
              e = IndexError.
Proof.
  apply (rebuild_needs_symbols_for_every_node
           (λ G, Ok ([[0]; [1]], 3)) sample_is_modified_terminal sample_reconstruct
           sample_getitem a_times_b ["MultiIndex"] false
           (vertices_of [(coefficient 0, 0); (coefficient 1, 1); (a_times_b, 2)])
           [[0]; [1]] 3).
  - vm_compute. reflexivity.
  - reflexivity.
  - vm_compute. lia.
Defined.

Lemma isinstance_cons e c classes :
  isinstance e (c :: classes) = bool_decide (c ∈ type_mro e) || isinstance e classes.
Proof. done. Qed.

(** The rebuilder special-cases multi-index operands but not labels,
    which the enumerator never indexes either: when the rebuild loop
    reaches an operator node with a [Label] operand (a variable node),
    it raises [KeyError] at the lookup [G.e2i[vop]]. *)
Theorem rebuild_fails_on_label_operand
  cs imt rc gi expression G V total before i kw after W expr vs o :
  build_graph_vertices expression ["MultiIndex"] false = Ok G →
  cs G = Ok (V, total) →
  length V = number_of_nodes G →
  nodes G = before ++ (i, kw) :: after →
  rebuild_nodes imt rc gi G V (replicate total None) before = Ok W →
  get_expression kw = Ok expr →
  V !! i = Some vs →
  all_filled W vs = Ok false →
  imt expr = false →
  o ∈ ufl_operands expr →
  isinstance o ["Label"] = true →
  isinstance o ["MultiIndex"] = false →
  rebuild_with_scalar_subexpressions cs imt rc gi G = Raise (KeyError "e2i").
Proof.
  intros HG Hcs Hlen Hnodes Hbefore Hexpr Hvs Hfilled Himt Ho Hlabel Hmulti.
  destruct (build_graph_vertices_spec expression ["MultiIndex"] false)
    as (m & _ & Hinv & HG').
  rewrite HG in HG'. destruct (skipped ["MultiIndex"] expression); [done|].
  injection HG' as ->. destruct Hinv as (Hdense & Hmem & _). cbn [fst] in *.
  assert (number_of_nodes (vertices_of m) = length m) as Hn.
  { unfold number_of_nodes, vertices_of, enumerate, dict_keys. cbn [nodes].
    by rewrite length_fmap, length_imap, length_fmap. }
  assert (mapM (operand_symbols (vertices_of m) V) (ufl_operands expr)
          = Raise (KeyError "e2i")) as Hsops.
  { apply mapM_first_error.
    - intros x _. unfold operand_symbols, get_e2i, vertices_of. cbn [e2i].
      destruct (isinstance x ["MultiIndex"]); [right; by eexists|]. raise_steps.
      destruct (dict_get x m) as [k|] eqn:Hk; raise_steps; [|by left].
      destruct (lookup_lt_is_Some_2 V k) as [sy ->]; [|right; by eexists].
      rewrite Hlen, Hn. by eapply dense_bound.
    - exists o. split; [done|].
      unfold operand_symbols, get_e2i, vertices_of. cbn [e2i]. rewrite Hmulti. raise_steps.
      destruct (dict_get o m) as [k|] eqn:Hk; [|done].
      destruct (Hmem o (mk_is_Some _ _ Hk)) as [Hskip _].
      unfold skipped in Hskip. rewrite isinstance_cons in Hskip.
      rewrite isinstance_cons in Hlabel. cbn [isinstance existsb] in Hlabel.
      rewrite orb_false_r in Hlabel. by rewrite Hlabel in Hskip. }
  unfold rebuild_with_scalar_subexpressions. rewrite Hcs. raise_steps.
  rewrite Hnodes, rebuild_nodes_app, Hbefore. cbn [rbind rebuild_nodes]. raise_steps.
  assert (rebuild_node imt rc gi (vertices_of m) V W (i, kw) = Raise (KeyError "e2i"))
    as ->; [|done].
  unfold rebuild_node, node_scalars. cbn [fst snd].
  rewrite Hexpr. raise_steps. rewrite Hvs. raise_steps. rewrite Hfilled. raise_steps.
  rewrite Himt, Hsops. by raise_steps.
Qed.

Lemma rebuild_fails_on_label_operand_witness :
  rebuild_with_scalar_subexpressions
    sample_compute_symbols sample_is_modified_terminal sample_reconstruct sample_getitem
    (vertices_of [(coefficient 0, 0); (variable_of_f, 1)])
  = Raise (KeyError "e2i").
Proof.
  apply (rebuild_fails_on_label_operand
           sample_compute_symbols sample_is_modified_terminal sample_reconstruct
           sample_getitem variable_of_f
           (vertices_of [(coefficient 0, 0); (variable_of_f, 1)])
           [[0]; [1]] 2
           [(0, [("expression", VExpr (coefficient 0))])]
           1 [("expression", VExpr variable_of_f); ("target", VBool true)] []
           [Some (coefficient 0); None] variable_of_f [1] (label 0));
    try (vm_compute; reflexivity).
  apply list_elem_of_In. simpl. auto.
Defined.


(** * Point maps *)

Lemma foldl_snoc_fmap {A B} (g : A → B) (acc : list B) (l : list A) :
  foldl (λ acc x, acc ++ [g x]) acc l = acc ++ (g <$> l).
Proof.
  revert acc. induction l as [|x l IH]; intros acc; simpl; [by rewrite app_nil_r|].
  by rewrite IH, <-app_assoc.
Qed.

Lemma foldl_declare {A} (mk : Z → A → Declaration) (decls : list Declaration)
  (dof : Z) (l : list A) :
  foldl (λ st x, (st.1 ++ [mk st.2 x], (st.2 + 1)%Z)) (decls, dof) l
  = (decls ++ imap (λ j x, mk (dof + Z.of_nat j)%Z x) l, (dof + Z.of_nat (length l))%Z).
Proof.
  revert decls dof. induction l as [|x l IH]; intros decls dof; simpl.
  - by rewrite app_nil_r, Z.add_0_r.
  - rewrite IH. cbn [fst snd]. rewrite <-app_assoc. f_equal; [|lia].
    simpl. rewrite Z.add_0_r. do 2 f_equal. apply imap_ext. intros j y _. simpl.
    f_equal. lia.
Qed.

Lemma foldl_declare_blocks {A} (mk : Z → Z → A → Declaration)
  (decls : list Declaration) (dof : Z) (cs : list Z) (l : list A) :
  foldl (λ st c, foldl (λ st x, (st.1 ++ [mk c st.2 x], (st.2 + 1)%Z)) st l)
        (decls, dof) cs
  = (decls ++ imap (λ k cx, mk cx.1 (dof + Z.of_nat k)%Z cx.2)
                   (mbind (M := list) (λ c : Z, (λ x : A, (c, x)) <$> l) cs),
     (dof + Z.of_nat (length (mbind (M := list) (λ c : Z, (λ x : A, (c, x)) <$> l) cs)))%Z).
Proof.
  revert decls dof. induction cs as [|c cs IH]; intros decls dof; simpl.
  - by rewrite app_nil_r, Z.add_0_r.
  - rewrite (foldl_declare (mk c)), IH. rewrite imap_app, imap_fmap, length_app, !length_fmap.
    rewrite <-app_assoc. unfold mbind. f_equal; [|lia]. f_equal. f_equal.
    apply imap_ext. intros k cx _. simpl. f_equal. lia.
Qed.

Lemma bind_blocks_length {A C} (cs : list C) (l : list A) :
  length (mbind (M := list) (λ c : C, (λ x : A, (c, x)) <$> l) cs) = length cs * length l.
Proof.
  induction cs as [|c cs IH]; [done|].
  change (length (((λ x : A, (c, x)) <$> l)
                  ++ mbind (M := list) (λ c : C, (λ x : A, (c, x)) <$> l) cs)
          = length l + length cs * length l).
  by rewrite length_app, length_fmap, IH.
Qed.

Lemma bind_blocks_lookup {A C} (cs : list C) (l : list A) i j c x :
  cs !! i = Some c → l !! j = Some x →
  mbind (M := list) (λ c : C, (λ x : A, (c, x)) <$> l) cs !! (i * length l + j)
  = Some (c, x).
Proof.
  revert i. induction cs as [|c0 cs IH]; intros i Hi Hj; [done|].
  change (mbind (M := list) (λ c : C, (λ x : A, (c, x)) <$> l) (c0 :: cs))
    with (((λ x : A, (c0, x)) <$> l)
          ++ mbind (M := list) (λ c : C, (λ x : A, (c, x)) <$> l) cs).
  destruct i as [|i]; simpl in Hi |- *.
  - injection Hi as ->. rewrite lookup_app_l by (rewrite length_fmap; by eapply lookup_lt_Some).
    by rewrite list_lookup_fmap, Hj.
  - rewrite lookup_app_r by (rewrite length_fmap; lia).
    rewrite length_fmap.
    replace (length l + i * length l + j - length l) with (i * length l + j) by lia.
    by apply IH.
Qed.

Section pointmap_facts.
Variable coord : Type.
Variable to_reference : coord → coord.
Variable format_coord : coord → string.

Lemma compute_pointmap_cells (element : FiniteElement coord) lo co :
  compute_pointmap to_reference format_coord element lo co
  = (imap (λ k cx, point_declaration format_coord (lo + Z.of_nat k)%Z cx.2)
          (dof_cells to_reference element)
     ++ imap (λ k cx, mkDeclaration (format_component (lo + Z.of_nat k)%Z)
                                    (pretty (co + cx.1)%Z))
             (dof_cells to_reference element),
     (lo + Z.of_nat (length (dof_cells to_reference element)))%Z,
     (co + num_reps (fiat_dual element))%Z).
Proof.
  unfold compute_pointmap, dof_cells. rewrite foldl_snoc_fmap. cbn [app].
  unfold declare_point, declare_component.
  rewrite (foldl_declare_blocks (λ _ dof point, point_declaration format_coord dof point)).
  cbn [fst snd app].
  rewrite (foldl_declare_blocks
             (λ c dof _, mkDeclaration (format_component dof) (pretty (co + c)%Z))).
  done.
Qed.

Lemma dof_cells_length (element : FiniteElement coord) :
  length (dof_cells to_reference element) = element_dofs element.
Proof.
  unfold dof_cells, element_dofs, range.
  by rewrite bind_blocks_length, !length_fmap, length_seq.
Qed.
End pointmap_facts.

Lemma string_snoc_inj (s1 s2 : string) : s1 +:+ "]" = s2 +:+ "]" → s1 = s2.
Proof.
  revert s2. induction s1 as [|a s1 IH]; intros [|b s2] Heq; simpl in Heq.
  - done.
  - injection Heq as _ Heq. by destruct s2.
  - injection Heq as _ Heq. by destruct s1.
  - injection Heq as -> Heq. f_equal. by apply IH.
Qed.

Lemma format_point_inj : Inj (=) (=) format_point.
Proof.
  intros x y Heq. unfold format_point in Heq.
  apply (String.app_inj "points[") in Heq.
  apply string_snoc_inj in Heq. by apply (inj pretty) in Heq.
Qed.

Lemma format_component_inj : Inj (=) (=) format_component.
Proof.
  intros x y Heq. unfold format_component in Heq.
  apply (String.app_inj "components[") in Heq.
  apply string_snoc_inj in Heq. by apply (inj pretty) in Heq.
Qed.

Lemma format_point_component (x y : Z) : format_point x ≠ format_component y.
Proof. unfold format_point, format_component. simpl. discriminate. Qed.

Lemma imap_index_only {A B} (h : nat → B) (l : list A) :
  imap (λ k _, h k) l = h <$> seq 0 (length l).
Proof.
  apply list_eq. intros i. rewrite list_lookup_imap, list_lookup_fmap.
  destruct (l !! i) as [x|] eqn:Hi; simpl.
  - rewrite lookup_seq_lt by (by eapply lookup_lt_Some). done.
  - apply lookup_ge_None in Hi. by rewrite lookup_seq_ge.
Qed.

Lemma elem_of_dofs_from (k start : Z) (count : nat) :
  k ∈ dofs_from start count ↔ (start ≤ k < start + Z.of_nat count)%Z.
Proof.
  unfold dofs_from. rewrite list_elem_of_fmap. split.
  - intros (i & -> & Hi%elem_of_seq). lia.
  - intros Hk. exists (Z.to_nat (k - start)). split; [lia|].
    apply elem_of_seq. lia.
Qed.

Lemma NoDup_dofs_from (start : Z) (count : nat) : NoDup (dofs_from start count).
Proof.
  unfold dofs_from. apply NoDup_fmap_2; [|apply NoDup_seq].
  intros i j Hij. lia.
Qed.

Lemma sum_list_cons (a : nat) (l : list nat) : sum_list (a :: l) = a + sum_list l.
Proof. done. Qed.

Lemma declared_names_elem {coord} (es : list (FiniteElement coord)) (lo : Z) x :
  x ∈ declared_names lo es ↔
  ∃ k : Z, (lo ≤ k < lo + Z.of_nat (sum_list (element_dofs <$> es)))%Z
           ∧ (x = format_point k ∨ x = format_component k).
Proof.
  revert lo. induction es as [|e es IH]; intros lo.
  - simpl. split; [by intros ?%elem_of_nil|]. intros (k & Hk & _). lia.
  - cbn [declared_names]. rewrite fmap_cons, sum_list_cons.
    rewrite !elem_of_app, !list_elem_of_fmap, IH. split.
    + intros [(k & -> & Hk%elem_of_dofs_from)
             |[(k & -> & Hk%elem_of_dofs_from)|(k & Hk & Hx)]];
        exists k; (split; [lia|tauto]).
    + intros (k & Hk & Hx).
      destruct (decide (k < lo + Z.of_nat (element_dofs e))%Z) as [Hlt|Hge].
      * assert (k ∈ dofs_from lo (element_dofs e)) by (apply elem_of_dofs_from; lia).
        destruct Hx as [->| ->]; [left|right; left]; by exists k.
      * right; right. exists k. split; [lia|done].
Qed.

Lemma declared_names_NoDup {coord} (es : list (FiniteElement coord)) (lo : Z) :
  NoDup (declared_names lo es).
Proof.
  revert lo. induction es as [|e es IH]; intros lo; [constructor|].
  cbn [declared_names]. apply NoDup_app. split; [|split].
  - apply (@NoDup_fmap_2 _ _ format_point format_point_inj), NoDup_dofs_from.
  - intros x (k & -> & Hk%elem_of_dofs_from)%list_elem_of_fmap
           [(k' & Heq & _)%list_elem_of_fmap|(k' & Hk' & Heq)%declared_names_elem]%elem_of_app.
    + by apply format_point_component in Heq.
    + destruct Heq as [Heq%format_point_inj|Heq]; [lia|].
      by apply format_point_component in Heq.
  - apply NoDup_app. split; [|split].
    + apply (@NoDup_fmap_2 _ _ format_component format_component_inj), NoDup_dofs_from.
    + intros x (k & -> & Hk%elem_of_dofs_from)%list_elem_of_fmap
             (k' & Hk' & Heq)%declared_names_elem.
      destruct Heq as [Heq|Heq%format_component_inj]; [|lia].
      symmetry in Heq. by apply format_point_component in Heq.
    + apply IH.
Qed.

Section pointmap_loop.
Variable coord : Type.
Variable to_reference : coord → coord.
Variable format_coord : coord → string.

Lemma compute_pointmap_names (element : FiniteElement coord) lo co :
  name <$> (compute_pointmap to_reference format_coord element lo co).1.1
  = (format_point <$> dofs_from lo (element_dofs element))
    ++ (format_component <$> dofs_from lo (element_dofs element)).
Proof.
  rewrite compute_pointmap_cells. cbn [fst]. rewrite fmap_app, !fmap_imap.
  unfold dofs_from. rewrite <-!list_fmap_compose, <-dof_cells_length with (to_reference := to_reference).
  f_equal.
  - by rewrite <-(imap_index_only (λ k, format_point (lo + Z.of_nat k))).
  - by rewrite <-(imap_index_only (λ k, format_component (lo + Z.of_nat k))).
Qed.

Lemma PointMap_loop (es : list (FiniteElement coord)) decls lo co :
  let st := foldl (λ st element,
                     let '(declarations, local_offset, component_offset) :=
                       compute_pointmap to_reference format_coord element st.1.2 st.2 in
                     (st.1.1 ++ declarations, local_offset, component_offset))
                  (decls, lo, co) es in
  name <$> st.1.1 = (name <$> decls) ++ declared_names lo es
  ∧ st.1.2 = (lo + Z.of_nat (sum_list (element_dofs <$> es)))%Z
  ∧ st.2 = (co + foldr Z.add 0%Z ((λ e, num_reps (fiat_dual e)) <$> es))%Z.
Proof.
  revert decls lo co. induction es as [|e es IH]; intros decls lo co.
  - simpl. rewrite app_nil_r. split; [done|]. split; lia.
  - cbn [foldl fst snd].
    pose proof (compute_pointmap_names e lo co) as Hnames.
    rewrite compute_pointmap_cells in Hnames |- *. cbn [fst snd] in Hnames |- *.
    destruct (IH (decls ++
                  (imap (λ k cx, point_declaration format_coord (lo + Z.of_nat k)%Z cx.2)
                        (dof_cells to_reference e)
                   ++ imap (λ k cx, mkDeclaration (format_component (lo + Z.of_nat k)%Z)
                                                  (pretty (co + cx.1)%Z))
                           (dof_cells to_reference e)))
                 (lo + Z.of_nat (length (dof_cells to_reference e)))%Z
                 (co + num_reps (fiat_dual e))%Z) as (IH1 & IH2 & IH3).
    cbv zeta. rewrite IH1, IH2, IH3. rewrite fmap_app, Hnames, dof_cells_length.
    cbn [declared_names]. rewrite !fmap_cons, sum_list_cons. cbn [foldr].
    rewrite <-!app_assoc. split; [done|]. split; lia.
Qed.
End pointmap_loop.

Lemma range_lookup (n : Z) (c : nat) :
  c < Z.to_nat n → range n !! c = Some (Z.of_nat c).
Proof.
  intros Hc. unfold range. by rewrite list_lookup_fmap, lookup_seq_lt.
Qed.

Lemma dof_cells_lookup {coord} (to_reference : coord → coord)
  (element : FiniteElement coord) (c j : nat) (point : list coord) :
  c < Z.to_nat (num_reps (fiat_dual element)) →
  pts (fiat_dual element) !! j = Some point →
  dof_cells to_reference element !! (c * length (pts (fiat_dual element)) + j)
  = Some (Z.of_nat c, to_reference <$> point).
Proof.
  intros Hc Hj. unfold dof_cells.
  rewrite <-(length_fmap (λ point : list coord, to_reference <$> point)
                         (pts (fiat_dual element))).
  apply bind_blocks_lookup; [by apply range_lookup|].
  by rewrite list_lookup_fmap, Hj.
Qed.

(** The model run on a scalar element with three points followed by a
    vector element with two components and two points. *)
Example PointMap_on_samples :
  (λ d, (name d, value d))
    <$> PointMap (Z.add 1) pretty (ElementList [sample_scalar_element; sample_vector_element])
  = [("points[0]", "map(1, 1)"); ("points[1]", "map(3, 1)"); ("points[2]", "map(1, 3)");
     ("components[0]", "0"); ("components[1]", "0"); ("components[2]", "0");
     ("points[3]", "map(1, 1)"); ("points[4]", "map(3, 1)");
     ("points[5]", "map(1, 1)"); ("points[6]", "map(3, 1)");
     ("components[3]", "1"); ("components[4]", "1");
     ("components[5]", "2"); ("components[6]", "2")].
Proof. vm_compute. reflexivity. Qed.

Section pointmap_theorems.
Variable coord : Type.
Variable to_reference : coord → coord.
Variable format_coord : coord → string.

(** For an element with [n] vector components and [p] points,
    [compute_pointmap] returns [2 * n * p] declarations, the local offset
    advanced by [n * p] and the component offset advanced by [num_reps].
    Degree of freedom [local_offset + c * p + j] (component [c], point
    [j]) has its coordinates declared at position [c * p + j] and its
    component, [component_offset + c], at position [n * p + c * p + j]. *)
Theorem compute_pointmap_layout (element : FiniteElement coord) (lo co : Z) :
  let n := Z.to_nat (num_reps (fiat_dual element)) in
  let p := length (pts (fiat_dual element)) in
  ∃ d : list Declaration,
    compute_pointmap to_reference format_coord element lo co
    = (d, (lo + Z.of_nat (n * p))%Z, (co + num_reps (fiat_dual element))%Z)
    ∧ length d = 2 * (n * p)
    ∧ ∀ (c j : nat) (point : list coord),
        c < n → pts (fiat_dual element) !! j = Some point →
        d !! (c * p + j)
        = Some (mkDeclaration
                  (format_point (lo + Z.of_nat (c * p + j)))
                  (format_affinemap
                     (str_join ", " (format_coord <$> (to_reference <$> point)))))
        ∧ d !! (n * p + (c * p + j))
          = Some (mkDeclaration (format_component (lo + Z.of_nat (c * p + j)))
                                (pretty (co + Z.of_nat c)%Z)).
Proof.
  intros n p. rewrite compute_pointmap_cells.
  pose proof (dof_cells_length _ to_reference element) as Hlen.
  unfold element_dofs in Hlen. fold n p in Hlen.
  eexists. split; [by rewrite Hlen|]. split.
  - rewrite length_app, !length_imap, Hlen. lia.
  - intros c j point Hc Hj.
    pose proof (dof_cells_lookup to_reference element c j point Hc Hj) as Hcell.
    fold p in Hcell.
    assert (c * p + j < n * p) as Hlt.
    { apply lookup_lt_Some in Hj. fold p in Hj. nia. }
    split.
    + rewrite lookup_app_l by (by rewrite length_imap, Hlen).
      by rewrite list_lookup_imap, Hcell.
    + rewrite lookup_app_r by (rewrite length_imap, Hlen; lia).
      rewrite length_imap, Hlen.
      replace (n * p + (c * p + j) - n * p) with (c * p + j) by lia.
      by rewrite list_lookup_imap, Hcell.
Qed.

(** An element without degrees of freedom (no points, or a number
    of components that is not positive) gives no declaration and leaves
    the local offset alone, but [num_reps] is still added to the component
    offset. *)
Theorem compute_pointmap_without_dofs (element : FiniteElement coord) (lo co : Z) :
  element_dofs element = 0 →
  compute_pointmap to_reference format_coord element lo co
  = ([], lo, (co + num_reps (fiat_dual element))%Z).
Proof.
  intros Hdofs. rewrite compute_pointmap_cells.
  pose proof (dof_cells_length _ to_reference element) as Hlen.
  rewrite Hdofs in Hlen. apply nil_length_inv in Hlen. rewrite Hlen. simpl.
  by rewrite Z.add_0_r.
Qed.

(** The declarations of a point map all have different names. *)
Theorem PointMap_names_distinct (elements : elements_arg coord) :
  NoDup (name <$> PointMap to_reference format_coord elements).
Proof.
  unfold PointMap.
  destruct (PointMap_loop _ to_reference format_coord
              (elements_of elements) [] 0%Z 0%Z) as (Hnames & _).
  cbv zeta in Hnames. fold (elements_of elements).
  rewrite Hnames. simpl. apply declared_names_NoDup.
Qed.

(** With [N] the number of degrees of freedom of all the elements, a
    point map declares [points[k]] exactly for [0 <= k < N], and
    [components[k]] for the same [k]: the numbering runs on from one
    element to the next without gap. *)
Theorem PointMap_declares_every_dof (elements : elements_arg coord) (k : Z) :
  (format_point k ∈ name <$> PointMap to_reference format_coord elements
   ↔ (0 ≤ k < Z.of_nat (sum_list (element_dofs <$> elements_of elements)))%Z)
  ∧ (format_component k ∈ name <$> PointMap to_reference format_coord elements
     ↔ (0 ≤ k < Z.of_nat (sum_list (element_dofs <$> elements_of elements)))%Z).
Proof.
  unfold PointMap.
  destruct (PointMap_loop _ to_reference format_coord
              (elements_of elements) [] 0%Z 0%Z) as (Hnames & _).
  cbv zeta in Hnames. fold (elements_of elements).
  rewrite Hnames. simpl. rewrite !declared_names_elem. split; split.
  - intros (k' & Hk' & [Heq%format_point_inj|Heq]); [lia|].
    by apply format_point_component in Heq.
  - intros Hk. exists k. split; [lia|by left].
  - intros (k' & Hk' & [Heq|Heq%format_component_inj]); [|lia].
    symmetry in Heq. by apply format_point_component in Heq.
  - intros Hk. exists k. split; [lia|by right].
Qed.

(** The point map of a list of elements followed by one more is the
    point map of the list followed by what [compute_pointmap] gives for the
    last element, with the local offset at the number of degrees of freedom
    of the list and the component offset at the sum of its [num_reps]. *)
Theorem PointMap_snoc (elements : list (FiniteElement coord))
  (element : FiniteElement coord) :
  PointMap to_reference format_coord (ElementList (elements ++ [element]))
  = PointMap to_reference format_coord (ElementList elements)
    ++ (compute_pointmap to_reference format_coord element
          (Z.of_nat (sum_list (element_dofs <$> elements)))
          (foldr Z.add 0%Z ((λ e, num_reps (fiat_dual e)) <$> elements))).1.1.
Proof.
  unfold PointMap. rewrite foldl_app. cbn [foldl].
  destruct (PointMap_loop _ to_reference format_coord elements [] 0%Z 0%Z)
    as (_ & Hlo & Hco).
  cbv zeta in Hlo, Hco. rewrite Hlo, Hco, !Z.add_0_l.
  by destruct (compute_pointmap _ _ _ _ _) as [[d lo'] co'].
Qed.
End pointmap_theorems.

Lemma compute_pointmap_without_dofs_witness :
  element_dofs (mkFiniteElement (mkDualBasis ([] : list (list Z)) 3)) = 0
  ∧ compute_pointmap (Z.add 1) pretty
      (mkFiniteElement (mkDualBasis ([] : list (list Z)) 3)) 4%Z 5%Z
    = ([], 4%Z, 8%Z).
Proof.
  split; [reflexivity|].
  apply (compute_pointmap_without_dofs Z (Z.add 1) pretty
           (mkFiniteElement (mkDualBasis [] 3)) 4%Z 5%Z).
  reflexivity.
Defined.

(** * Include lines *)

Lemma sorted_set_elem (s : gset string) (x : string) : x ∈ sorted_set s ↔ x ∈ s.
Proof. unfold sorted_set. by rewrite merge_sort_Permutation, elem_of_elements. Qed.

Lemma sorted_set_NoDup (s : gset string) : NoDup (sorted_set s).
Proof. unfold sorted_set. rewrite merge_sort_Permutation. apply NoDup_elements. Qed.

Lemma sorted_set_Sorted (s : gset string) : Sorted String.le (sorted_set s).
Proof. apply (Sorted_merge_sort String.le). Qed.

(** The header's include block is never empty: it lists [#include <ufc.h>]
    and the includes it was given, each once whatever the number of times
    it was asked for, in ascending order, one per line, every line closed
    by a line feed. *)
Theorem generate_includes_header (includes : gset string)
  (parameters : gmap string param) :
  ∃ lines : list string,
    (_generate_includes includes parameters).1 = str_join newline lines +:+ newline
    ∧ Sorted String.le lines
    ∧ NoDup lines
    ∧ ∀ x : string, x ∈ lines ↔ x = "#include <ufc.h>" ∨ x ∈ includes.
Proof.
  exists (sorted_set (list_to_set ["#include <ufc.h>"] ∪ includes)).
  split; [|split; [apply sorted_set_Sorted|split; [apply sorted_set_NoDup|]]].
  - unfold _generate_includes. cbn [fst].
    rewrite bool_decide_eq_true_2; [done|].
    apply (non_empty_inhabited_L "#include <ufc.h>").
    apply elem_of_union_l, elem_of_list_to_set, list_elem_of_singleton. done.
  - intros x.
    by rewrite sorted_set_elem, elem_of_union, elem_of_list_to_set, list_elem_of_singleton.
Qed.
